(** * WebSocket stream sessions of the Binance connector

    A model of [wsServe] and [keepAlive] (websocket.go).  The dial step and
    its error path are a function on the triple that [Dialer.Dial] returns;
    the goroutines that [wsServe] starts (coordinator, read loop, keepalive
    loop) together with the caller and the peer form a labelled transition
    system, one label per statement that touches shared state (the channels
    [doneCh] and [stopCh], the flag [silent], the variable [lastResponse],
    the socket, the two handlers). *)

From Stdlib Require Import ZArith List Bool String Lia.
Import ListNotations.
Open Scope Z_scope.

(** ** Values at the library boundary *)

(** [message []byte], the payload handed to a [WsHandler]. *)
Definition message := list Byte.byte.

Definition msg_len (m : message) : Z := Z.of_nat (List.length m).

(** The error values the code distinguishes or can meet. *)
Inductive error :=
| CloseError (code : Z) (text : string)      (* *websocket.CloseError *)
| HandshakeError (msg : string)              (* *websocket.HandshakeError *)
| ErrReadLimit                               (* websocket.ErrReadLimit *)
| ErrNetClosed                               (* use of closed network connection *)
| OtherError (msg : string)                  (* any other error value *)
| Errorf (format : string) (arg : error).    (* fmt.Errorf(format, arg) *)

(** [*tls.ConnectionState] and [*http.Response], as far as they are read. *)
Record tls_state := { NegotiatedProtocol : string }.

Record http_response := {
  Status : string;
  Body : string;
  TLS : option tls_state
}.

(** [*websocket.Conn]: what the session reads or sets of it. *)
Record conn := {
  closed : bool;          (* Close() has been called *)
  readLimit : Z;          (* SetReadLimit; 0 means no limit *)
  pongHandler : bool      (* the session's pong handler is installed *)
}.

Definition SetReadLimit (c : conn) (n : Z) : conn :=
  {| closed := closed c; readLimit := n; pongHandler := pongHandler c |}.

Definition SetPongHandler (c : conn) : conn :=
  {| closed := closed c; readLimit := readLimit c; pongHandler := true |}.

(** What [c.ReadMessage()] returns when the next thing on the wire is the
    data frame [f]: a closed connection fails, a message over a positive
    read limit fails with [ErrReadLimit], otherwise the payload. *)
Definition ReadMessage (c : conn) (f : message) : message + error :=
  if closed c then inr ErrNetClosed
  else if (0 <? readLimit c) && (readLimit c <? msg_len f) then inr ErrReadLimit
  else inl f.

(** The triple [(c, httpResponse, err)] returned by [Dialer.Dial]. *)
Record dial_result := {
  dial_conn : option conn;
  dial_resp : option http_response;
  dial_err : option error
}.

(** [time.Duration] and instants, in nanoseconds. *)
Definition Duration := Z.
Definition Second : Duration := 1000000000.
Definition maxDuration : Duration := 9223372036854775807.
Definition minDuration : Duration := - 9223372036854775808.

(** [time.Since(t)] at instant [now]: the difference, saturated to int64. *)
Definition Since (now t : Z) : Duration :=
  Z.max minDuration (Z.min maxDuration (now - t)).

(** ** Session state *)

Inductive coord_pc :=
| CoInit        (* goroutine created, nothing run yet *)
| CoSelect      (* in the for/select *)
| CoGotStop     (* case <-stopCh taken, before silent = true *)
| CoReturn      (* silent = true done, at return *)
| CoExited.     (* returned, deferred close(doneCh) run *)

Inductive reader_pc :=
| RdIdle                 (* not started *)
| RdRead                 (* blocked in c.ReadMessage() *)
| RdMsg (m : message)    (* ReadMessage returned m, handler(m) not yet called *)
| RdErr (e : error)      (* ReadMessage returned e, before if !silent *)
| RdSend                 (* at stopCh <- struct{}{} *)
| RdExited.              (* send completed, goroutine returned *)

Inductive ka_pc :=
| KaOff         (* keepAlive was not called *)
| KaPing        (* at c.WriteControl(PingMessage, ...) *)
| KaTick        (* at <-ticker.C *)
| KaExited.     (* returned, deferred ticker.Stop() run *)

Record session := {
  sock : conn;
  done_closes : nat;         (* close(doneCh) operations executed *)
  stop_waiting : nat;        (* callers blocked in stopCh <- struct{}{} *)
  stops_taken : nat;         (* caller sends received by the coordinator *)
  silent : bool;
  coord : coord_pc;
  reader : reader_pc;
  ka : ka_pc;
  lastResponse : Z;
  ticker_stopped : bool;
  handled : list message;    (* handler(m) calls, oldest first *)
  reported : list error;     (* errHandler(e) calls, oldest first *)
  crashed : bool             (* an unrecovered panic ended the process *)
}.

Definition set_sock (c : conn) (s : session) : session :=
  {| sock := c; done_closes := done_closes s; stop_waiting := stop_waiting s;
     stops_taken := stops_taken s; silent := silent s; coord := coord s;
     reader := reader s; ka := ka s; lastResponse := lastResponse s;
     ticker_stopped := ticker_stopped s; handled := handled s;
     reported := reported s; crashed := crashed s |}.

Definition set_done_closes (n : nat) (s : session) : session :=
  {| sock := sock s; done_closes := n; stop_waiting := stop_waiting s;
     stops_taken := stops_taken s; silent := silent s; coord := coord s;
     reader := reader s; ka := ka s; lastResponse := lastResponse s;
     ticker_stopped := ticker_stopped s; handled := handled s;
     reported := reported s; crashed := crashed s |}.

Definition set_stop_waiting (n : nat) (s : session) : session :=
  {| sock := sock s; done_closes := done_closes s; stop_waiting := n;
     stops_taken := stops_taken s; silent := silent s; coord := coord s;
     reader := reader s; ka := ka s; lastResponse := lastResponse s;
     ticker_stopped := ticker_stopped s; handled := handled s;
     reported := reported s; crashed := crashed s |}.

Definition set_stops_taken (n : nat) (s : session) : session :=
  {| sock := sock s; done_closes := done_closes s; stop_waiting := stop_waiting s;
     stops_taken := n; silent := silent s; coord := coord s;
     reader := reader s; ka := ka s; lastResponse := lastResponse s;
     ticker_stopped := ticker_stopped s; handled := handled s;
     reported := reported s; crashed := crashed s |}.

Definition set_silent (b : bool) (s : session) : session :=
  {| sock := sock s; done_closes := done_closes s; stop_waiting := stop_waiting s;
     stops_taken := stops_taken s; silent := b; coord := coord s;
     reader := reader s; ka := ka s; lastResponse := lastResponse s;
     ticker_stopped := ticker_stopped s; handled := handled s;
     reported := reported s; crashed := crashed s |}.

Definition set_coord (p : coord_pc) (s : session) : session :=
  {| sock := sock s; done_closes := done_closes s; stop_waiting := stop_waiting s;
     stops_taken := stops_taken s; silent := silent s; coord := p;
     reader := reader s; ka := ka s; lastResponse := lastResponse s;
     ticker_stopped := ticker_stopped s; handled := handled s;
     reported := reported s; crashed := crashed s |}.

Definition set_reader (p : reader_pc) (s : session) : session :=
  {| sock := sock s; done_closes := done_closes s; stop_waiting := stop_waiting s;
     stops_taken := stops_taken s; silent := silent s; coord := coord s;
     reader := p; ka := ka s; lastResponse := lastResponse s;
     ticker_stopped := ticker_stopped s; handled := handled s;
     reported := reported s; crashed := crashed s |}.

Definition set_ka (p : ka_pc) (s : session) : session :=
  {| sock := sock s; done_closes := done_closes s; stop_waiting := stop_waiting s;
     stops_taken := stops_taken s; silent := silent s; coord := coord s;
     reader := reader s; ka := p; lastResponse := lastResponse s;
     ticker_stopped := ticker_stopped s; handled := handled s;
     reported := reported s; crashed := crashed s |}.

Definition set_lastResponse (t : Z) (s : session) : session :=
  {| sock := sock s; done_closes := done_closes s; stop_waiting := stop_waiting s;
     stops_taken := stops_taken s; silent := silent s; coord := coord s;
     reader := reader s; ka := ka s; lastResponse := t;
     ticker_stopped := ticker_stopped s; handled := handled s;
     reported := reported s; crashed := crashed s |}.

Definition set_ticker_stopped (b : bool) (s : session) : session :=
  {| sock := sock s; done_closes := done_closes s; stop_waiting := stop_waiting s;
     stops_taken := stops_taken s; silent := silent s; coord := coord s;
     reader := reader s; ka := ka s; lastResponse := lastResponse s;
     ticker_stopped := b; handled := handled s;
     reported := reported s; crashed := crashed s |}.

Definition set_handled (l : list message) (s : session) : session :=
  {| sock := sock s; done_closes := done_closes s; stop_waiting := stop_waiting s;
     stops_taken := stops_taken s; silent := silent s; coord := coord s;
     reader := reader s; ka := ka s; lastResponse := lastResponse s;
     ticker_stopped := ticker_stopped s; handled := l;
     reported := reported s; crashed := crashed s |}.

Definition set_reported (l : list error) (s : session) : session :=
  {| sock := sock s; done_closes := done_closes s; stop_waiting := stop_waiting s;
     stops_taken := stops_taken s; silent := silent s; coord := coord s;
     reader := reader s; ka := ka s; lastResponse := lastResponse s;
     ticker_stopped := ticker_stopped s; handled := handled s;
     reported := l; crashed := crashed s |}.

Definition set_crashed (b : bool) (s : session) : session :=
  {| sock := sock s; done_closes := done_closes s; stop_waiting := stop_waiting s;
     stops_taken := stops_taken s; silent := silent s; coord := coord s;
     reader := reader s; ka := ka s; lastResponse := lastResponse s;
     ticker_stopped := ticker_stopped s; handled := handled s;
     reported := reported s; crashed := b |}.

(** [doneCh] is closed once a [close(doneCh)] has run. *)
Definition done_closed (s : session) : bool := negb (Nat.eqb (done_closes s) 0).

(** ** wsServe up to the point where it returns *)

(** The session as [wsServe] leaves it on success: read limit set, both
    channels made, the coordinator goroutine created and not yet run. *)
Definition new_session (c : conn) : session :=
  {| sock := SetReadLimit c 655350;
     done_closes := 0; stop_waiting := 0; stops_taken := 0;
     silent := false; coord := CoInit; reader := RdIdle; ka := KaOff;
     lastResponse := 0; ticker_stopped := false;
     handled := []; reported := []; crashed := false |}.

Inductive outcome :=
| Panicked                         (* nil pointer dereference *)
| Failed (err : error)             (* return nil, nil, err *)
| Serving (s : session).           (* return doneCh, stopCh, nil *)

(** The [switch err.(type)] that rewrites the dial error. *)
Definition dial_error_of (err : error) : error :=
  match err with
  | CloseError _ _ => Errorf "websocket.CloseError: %v"%string err
  | HandshakeError _ => Errorf "websocket.Handshake: %v"%string err
  | _ => err
  end.

(** [wsServe] from the result of [Dialer.Dial] to its return.  On an error
    the diagnostic prints read [httpResponse.Status], [httpResponse.Body]
    and [httpResponse.TLS.NegotiatedProtocol] before the error is returned;
    reading a field through a nil pointer panics. *)
Definition wsServe (d : dial_result) : outcome :=
  match dial_err d with
  | Some err =>
      match dial_resp d with
      | None => Panicked                              (* httpResponse.Status *)
      | Some resp =>
          match TLS resp with
          | None => Panicked                          (* httpResponse.TLS.NegotiatedProtocol *)
          | Some _ => Failed (dial_error_of err)
          end
      end
  | None =>
      match dial_conn d with
      | None => Panicked                              (* c.SetReadLimit on nil *)
      | Some c => Serving (new_session c)
      end
  end.

(** The connection as a successful [Dialer.Dial] hands it over. *)
Definition dialed : conn :=
  {| closed := false; readLimit := 0; pongHandler := false |}.

Definition init : session := new_session dialed.

(** ** The stream client *)

(** [WsConfig] and [newWsConfig]. *)
Module Config.
Record WsConfig := { Endpoint : string }.

Definition newWsConfig (endpoint : string) : WsConfig :=
  {| Endpoint := endpoint |}.
End Config.

Record WebsocketStreamClient := {
  Endpoint : string;
  IsCombined : bool
}.

(** [NewWebsocketStreamClient(isCombined, baseURL...)]: the production URL
    unless a base URL is given, then the path for combined or raw streams. *)
Definition NewWebsocketStreamClient (isCombined : bool) (baseURL : list string)
  : WebsocketStreamClient :=
  let url := "wss://stream.binance.com:9443"%string in
  let url := match baseURL with
             | u :: _ => u             (* len(baseURL) > 0: baseURL[0] *)
             | [] => url
             end in
  let url := if isCombined
             then (url ++ "/stream?streams=")%string
             else (url ++ "/ws")%string in
  {| Endpoint := url; IsCombined := isCombined |}.

(** The last character of a string. *)
Fixpoint last_char (s : string) : option Ascii.ascii :=
  match s with
  | EmptyString => None
  | String c EmptyString => Some c
  | String _ r => last_char r
  end.

(** ** The goroutines *)

Inductive label :=
| CoStart (now : Z)      (* coordinator: defer close(doneCh); keepAlive if enabled;
                            silent := false; go <read loop> *)
| CoTakeCallerStop       (* coordinator: case <-stopCh, sender is a caller *)
| CoTakeReaderStop       (* coordinator: case <-stopCh, sender is the read loop *)
| CoTakeDone             (* coordinator: case <-doneCh *)
| CoSilence              (* coordinator: silent = true *)
| CoClose                (* coordinator: return, running close(doneCh) *)
| RdFrame (f : message)  (* read loop: ReadMessage, next on the wire is frame f *)
| RdFail (e : error)     (* read loop: ReadMessage fails with e *)
| RdHandler              (* read loop: handler(message) *)
| RdReport               (* read loop: if !silent { errHandler(err) } *)
| CallerStop             (* a caller starts stopCh <- struct{}{} *)
| KaWrite (ok : bool)    (* keepalive: c.WriteControl(PingMessage, ...) *)
| KaTicked (now : Z)     (* keepalive: <-ticker.C, then the time.Since test *)
| Pong (now : Z).        (* a pong arrives while the read loop is in ReadMessage *)

(** The session together with a client that may also close [stopCh], the
    stop action the comments in [wsServe] name. *)
Inductive xlabel :=
| Plain (l : label)      (* a statement as above *)
| CallerClose            (* a caller runs close(stopCh) *)
| CoTakeClosed           (* coordinator: case <-stopCh on the closed channel *)
| RdSendClosed.          (* read loop: stopCh <- struct{}{} on the closed channel *)

(** Schedules used below.  The caller raises stop on a healthy
    connection and the coordinator handles it. *)
Definition caller_stops : list label :=
  [CoStart 0; CallerStop; CoTakeCallerStop; CoSilence; CoClose].

(** The connection fails with [e] and nobody raised stop. *)
Definition peer_closes (e : error) : list label :=
  [CoStart 0; RdFail e; RdReport; CoTakeReaderStop; CoSilence; CoClose].

(** The caller's send on [stopCh] completes, then the connection fails
    with [e] before the coordinator has run [silent = true]. *)
Definition stop_then_error (e : error) : list label :=
  [CoStart 0; CallerStop; CoTakeCallerStop; RdFail e; RdReport;
   CoSilence; CoClose].

(** The peer sends the frames [fs]; the read loop hands each one over. *)
Definition deliver (fs : list message) : list label :=
  flat_map (fun f => [RdFrame f; RdHandler]) fs.

(** The coordinator takes the read loop's signal and returns. *)
Definition finish (p : coord_pc) : list label :=
  match p with
  | CoInit => []
  | CoSelect => [CoTakeReaderStop; CoSilence; CoClose]
  | CoGotStop => [CoSilence; CoClose]
  | CoReturn => [CoClose]
  | CoExited => []
  end.

Definition from_peer (l : label) : bool :=
  match l with
  | RdFrame _ | RdFail _ => true
  | _ => false
  end.

(** The read loop has seen a read error. *)
Definition after_error (r : reader_pc) : bool :=
  match r with RdErr _ | RdSend | RdExited => true | _ => false end.

(** The keepalive loop is running. *)
Definition probing (k : ka_pc) : bool :=
  match k with KaPing | KaTick => true | _ => false end.

(** The coordinator's return after the read loop's error is in hand. *)
Definition report_and_finish : list label :=
  [RdReport; CoTakeReaderStop; CoSilence; CoClose].

Section Session.

(** The package variables read by the coordinator. *)
Variable WebsocketKeepalive : bool.
Variable WebsocketTimeout : Duration.

(** [keepAlive(c, timeout)] up to its [go]: [time.NewTicker] panics on a
    duration that is not positive. *)
Definition keepAlive (now : Z) (s : session) : session :=
  if WebsocketTimeout <=? 0 then set_crashed true s
  else set_ka KaPing (set_sock (SetPongHandler (sock s)) (set_lastResponse now s)).

(** One statement of one goroutine; [None] when it cannot run in [s]
    (wrong program point, or a channel operation with no partner). *)
Definition step (s : session) (l : label) : option session :=
  if crashed s then None else
  match l with
  | CoStart now =>
      match coord s with
      | CoInit =>
          let s1 := if WebsocketKeepalive then keepAlive now s else s in
          if crashed s1
          then Some (set_coord CoExited (set_done_closes (S (done_closes s1)) s1))
          else Some (set_reader RdRead (set_coord CoSelect (set_silent false s1)))
      | _ => None
      end
  | CoTakeCallerStop =>
      match coord s, stop_waiting s with
      | CoSelect, S n =>
          Some (set_coord CoGotStop
                  (set_stops_taken (S (stops_taken s)) (set_stop_waiting n s)))
      | _, _ => None
      end
  | CoTakeReaderStop =>
      match coord s, reader s with
      | CoSelect, RdSend => Some (set_coord CoGotStop (set_reader RdExited s))
      | _, _ => None
      end
  | CoTakeDone =>
      match coord s with
      | CoSelect => if done_closed s then Some s else None
      | _ => None
      end
  | CoSilence =>
      match coord s with
      | CoGotStop => Some (set_coord CoReturn (set_silent true s))
      | _ => None
      end
  | CoClose =>
      match coord s with
      | CoReturn =>
          Some (set_coord CoExited
                  (set_crashed (done_closed s)
                     (set_done_closes (S (done_closes s)) s)))
      | _ => None
      end
  | RdFrame f =>
      match reader s with
      | RdRead =>
          match ReadMessage (sock s) f with
          | inl m => Some (set_reader (RdMsg m) s)
          | inr e => Some (set_reader (RdErr e) s)
          end
      | _ => None
      end
  | RdFail e =>
      match reader s with
      | RdRead => Some (set_reader (RdErr e) s)
      | _ => None
      end
  | RdHandler =>
      match reader s with
      | RdMsg m => Some (set_reader RdRead (set_handled (handled s ++ [m]) s))
      | _ => None
      end
  | RdReport =>
      match reader s with
      | RdErr e =>
          Some (set_reader RdSend
                  (if silent s then s else set_reported (reported s ++ [e]) s))
      | _ => None
      end
  | CallerStop => Some (set_stop_waiting (S (stop_waiting s)) s)
  | KaWrite ok =>
      match ka s with
      | KaPing =>
          if ok && negb (closed (sock s))
          then Some (set_ka KaTick s)
          else Some (set_ka KaExited (set_ticker_stopped true s))
      | _ => None
      end
  | KaTicked now =>
      match ka s with
      | KaTick =>
          if Since now (lastResponse s) >? WebsocketTimeout
          then Some (set_ka KaExited (set_ticker_stopped true s))
          else Some (set_ka KaPing s)
      | _ => None
      end
  | Pong now =>
      match reader s with
      | RdRead =>
          if pongHandler (sock s) && negb (closed (sock s))
          then Some (set_lastResponse now s)
          else None
      | _ => None
      end
  end.

(** A schedule: the statements run, in order. *)
Fixpoint run (s : session) (tr : list label) : option session :=
  match tr with
  | [] => Some s
  | l :: tr' =>
      match step s l with
      | Some s' => run s' tr'
      | None => None
      end
  end.

Definition reachable (s : session) : Prop := exists tr, run init tr = Some s.

(** One statement when [stopCh] may be closed; the boolean says whether it
    is.  A send on a closed channel panics, also a send that was already
    waiting when the channel is closed; closing a closed channel panics; a
    receive from a closed channel returns at once. *)
Definition xstep (x : session * bool) (l : xlabel) : option (session * bool) :=
  let (s, stop_closed) := x in
  if crashed s then None else
  match l with
  | CallerClose =>
      if stop_closed then Some (set_crashed true s, true)
      else if negb (Nat.eqb (stop_waiting s) 0)
              || match reader s with RdSend => true | _ => false end
           then Some (set_crashed true s, true)
           else Some (s, true)
  | CoTakeClosed =>
      match coord s, stop_closed with
      | CoSelect, true => Some (set_coord CoGotStop s, true)
      | _, _ => None
      end
  | RdSendClosed =>
      match reader s, stop_closed with
      | RdSend, true => Some (set_crashed true s, true)
      | _, _ => None
      end
  | Plain l =>
      if stop_closed then
        match l with
        | CallerStop => Some (set_crashed true s, true)
        | CoTakeCallerStop | CoTakeReaderStop => None
        | _ => option_map (fun s' => (s', true)) (step s l)
        end
      else option_map (fun s' => (s', false)) (step s l)
  end.

Fixpoint xrun (x : session * bool) (tr : list xlabel) : option (session * bool) :=
  match tr with
  | [] => Some x
  | l :: tr' =>
      match xstep x l with
      | Some x' => xrun x' tr'
      | None => None
      end
  end.

(** Frames of a schedule that [ReadMessage] hands to the read loop. *)
Definition fits (m : message) : bool := msg_len m <=? 655350.

Fixpoint accepted (tr : list label) : list message :=
  match tr with
  | [] => []
  | RdFrame f :: tr' => if fits f then f :: accepted tr' else accepted tr'
  | _ :: tr' => accepted tr'
  end.

(** The message the read loop holds between [ReadMessage] and [handler]. *)
Definition in_flight (s : session) : list message :=
  match reader s with
  | RdMsg m => [m]
  | _ => []
  end.

(** Stop signals the coordinator has received: from callers, and from the
    read loop (whose send completes exactly when it is received). *)
Definition signals (s : session) : nat :=
  (stops_taken s + match reader s with RdExited => 1 | _ => 0 end)%nat.

Definition got_signal (p : coord_pc) : bool :=
  match p with CoGotStop | CoReturn | CoExited => true | _ => false end.

Definition silenced (p : coord_pc) : bool :=
  match p with CoReturn | CoExited => true | _ => false end.

Definition exited (p : coord_pc) : bool :=
  match p with CoExited => true | _ => false end.

Definition started (p : coord_pc) : bool :=
  match p with CoInit => false | _ => true end.

Definition idle (r : reader_pc) : bool :=
  match r with RdIdle => true | _ => false end.

Definition past_report (r : reader_pc) : bool :=
  match r with RdSend | RdExited => true | _ => false end.

(** What holds in every state a session can reach. *)
Record inv (s : session) : Prop := {
  inv_open : closed (sock s) = false;
  inv_limit : readLimit (sock s) = 655350;
  inv_done : done_closes s = if exited (coord s) then 1%nat else 0%nat;
  inv_crash : crashed s = true ->
              coord s = CoExited /\ reader s = RdIdle /\ ka s = KaOff /\
              stops_taken s = 0%nat /\ handled s = [];
  inv_pre : coord s = CoInit -> ka s = KaOff /\ handled s = [];
  inv_idle : crashed s = false -> idle (reader s) = negb (started (coord s));
  inv_signals : crashed s = false ->
                signals s = if got_signal (coord s) then 1%nat else 0%nat;
  inv_silent : silent s = negb (crashed s) && silenced (coord s);
  inv_reported : reported s = [] \/
                 (exists e, reported s = [e] /\ past_report (reader s) = true);
  inv_fits : Forall (fun m => fits m = true) (handled s ++ in_flight s);
  inv_ka : (pongHandler (sock s) = negb (match ka s with KaOff => true | _ => false end)) /\
           (ticker_stopped s = match ka s with KaExited => true | _ => false end)
}.

(** *** Statements of the specification that the code does not meet *)

(** [doneCh] is closed only after the read loop has returned, so no handler
    call follows its close. *)
Definition done_follows_read_loop : Prop :=
  forall tr s, run init tr = Some s -> done_closed s = true ->
    reader s = RdExited /\
    forall tr' s', run s tr' = Some s' -> handled s' = handled s.

(** A stop raised after [doneCh] is closed does not block: the send is
    taken. *)
Definition stop_after_done_returns : Prop :=
  forall tr s s1, run init tr = Some s -> done_closed s = true ->
    step s CallerStop = Some s1 ->
    exists tr' s', run s1 tr' = Some s' /\ stops_taken s' = S (stops_taken s).

(** Handling a caller's stop closes the socket. *)
Definition stop_closes_socket : Prop :=
  forall tr s, run init tr = Some s ->
    stops_taken s = 1%nat -> coord s = CoExited -> closed (sock s) = true.

(** The keepalive loop closes the socket when it gives up on the peer. *)
Definition keepalive_closes_socket : Prop :=
  forall tr s now s', run init tr = Some s -> ka s = KaTick ->
    Since now (lastResponse s) > WebsocketTimeout ->
    step s (KaTicked now) = Some s' ->
    ka s' = KaExited /\ closed (sock s') = true.

(** The error handler is silent once a caller's stop has been received
    before any read error. *)
Definition stop_silences_errors : Prop :=
  forall tr s, run init tr = Some s ->
    stops_taken s = 1%nat -> past_report (reader s) = false ->
    (forall e, reader s <> RdErr e) ->
    forall tr' s', run s tr' = Some s' -> reported s' = [].

(** A read error that no caller stop preceded is reported: once the read
    loop is past its test of [silent], [errHandler] has been called, once. *)
Definition read_error_always_reported : Prop :=
  forall tr s e s1 tr' s',
    run init tr = Some s ->
    stops_taken s = 0%nat -> stop_waiting s = 0%nat ->
    step s (RdFail e) = Some s1 ->
    run s1 tr' = Some s' -> past_report (reader s') = true ->
    reported s' = [e].

Lemma run_app s tr1 tr2 :
  run s (tr1 ++ tr2) =
  match run s tr1 with Some s' => run s' tr2 | None => None end.
Proof.
  revert s. induction tr1 as [|l tr1 IH]; intros s; simpl; [reflexivity|].
  destruct (step s l); auto.
Qed.

Lemma run_snoc s tr l :
  run s (tr ++ [l]) =
  match run s tr with Some s' => step s' l | None => None end.
Proof.
  rewrite run_app. destruct (run s tr) as [s'|]; [|reflexivity].
  simpl. destruct (step s' l); reflexivity.
Qed.

Lemma reachable_init : reachable init.
Proof. exists []. reflexivity. Qed.

(** Any property kept by every step holds along a schedule. *)
Lemma run_preserves (P : session -> Prop) :
  (forall s l s', P s -> step s l = Some s' -> P s') ->
  forall tr s s', P s -> run s tr = Some s' -> P s'.
Proof.
  intros Hstep. induction tr as [|l tr IH]; intros s s' HP Hr; simpl in Hr.
  - injection Hr as <-. exact HP.
  - destruct (step s l) as [s1|] eqn:E; [|discriminate].
    eapply IH; [|exact Hr]. eapply Hstep; eauto.
Qed.


Ltac break_step H :=
  repeat match type of H with
         | context [match ?x with _ => _ end] => destruct x eqn:?
         | context [if ?b then _ else _] => destruct b eqn:?
         end;
  try discriminate H.

Lemma inv_init : inv init.
Proof.
  constructor; simpl; auto; try discriminate; try tauto.
Qed.

Lemma ReadMessage_inl c f m :
  readLimit c = 655350 -> ReadMessage c f = inl m -> m = f /\ fits f = true.
Proof.
  unfold ReadMessage, fits. intros ->. destruct (closed c); [discriminate|].
  simpl. destruct (655350 <? msg_len f) eqn:E; [discriminate|].
  intros [= <-]. split; [reflexivity|]. apply Z.ltb_ge in E. now apply Z.leb_le.
Qed.

Lemma inv_step s l s' : inv s -> step s l = Some s' -> inv s'.
Proof.
  intros [Ho Hl Hd Hc Hp Hi Hg Hs Hr Hf [Hk1 Hk2]] Hstep.
  unfold step in Hstep.
  destruct (crashed s) eqn:Ecr; [discriminate|].
  specialize (Hi eq_refl). specialize (Hg eq_refl). clear Hc.
  destruct s as [sk dc sw st sil co rd k lr ts hd rp cr].
  unfold keepAlive, done_closed, signals, in_flight in *; simpl in *.
  destruct Hr as [Hr | [e0 [Hr Hr']]].
  all: destruct co, rd; simpl in *; try discriminate; try lia.
  all: destruct l; simpl in Hstep; break_step Hstep;
    injection Hstep as <-; subst; simpl in *; try discriminate.
  all: constructor; unfold signals, in_flight; simpl; intros;
    repeat match goal with
           | H : ?a = ?a -> _ |- _ => specialize (H eq_refl)
           | H : _ /\ _ |- _ => destruct H
           end; subst; simpl in *;
    rewrite ?app_nil_r in *;
    auto; try discriminate; try lia; try tauto; eauto.
  all: try (apply Forall_app in Hf; tauto).
  all: try (repeat split; lia).
  all: match goal with H : ReadMessage _ _ = inl _ |- _ =>
         apply ReadMessage_inl in H; [destruct H as [-> ?] | assumption]
       end;
    apply Forall_app; split; [assumption|]; repeat constructor; assumption.
Qed.

Lemma inv_run tr : forall s s', inv s -> run s tr = Some s' -> inv s'.
Proof. apply (run_preserves inv). exact inv_step. Qed.

Lemma inv_reachable s : reachable s -> inv s.
Proof. intros [tr H]. exact (inv_run tr _ _ inv_init H). Qed.

(** Unfold one step into its cases. *)
Ltac step_cases s l H :=
  unfold step in H;
  destruct (crashed s) eqn:?; [discriminate H|];
  destruct s; unfold keepAlive, done_closed in *; simpl in *;
  destruct l; simpl in H; break_step H;
  injection H as <-; subst; simpl in *.

(** Once the coordinator has returned, nothing receives from [stopCh],
    nothing closes [doneCh] again and nothing panics. *)
Lemma exited_step s l s' :
  coord s = CoExited -> step s l = Some s' ->
  coord s' = CoExited /\ stops_taken s' = stops_taken s /\
  done_closes s' = done_closes s /\ crashed s' = crashed s /\
  (stop_waiting s <= stop_waiting s')%nat /\
  (reader s <> RdExited -> reader s' <> RdExited).
Proof.
  intros Hc Hs. step_cases s l Hs; repeat split; auto; try congruence; try lia.
Qed.

(** A read loop that has returned calls no handler. *)
Lemma returned_step s l s' :
  inv s -> reader s = RdExited -> step s l = Some s' ->
  reader s' = RdExited /\ handled s' = handled s.
Proof.
  intros I Hr Hs. pose proof (inv_idle _ I) as Hi.
  step_cases s l Hs; repeat split; auto; try congruence.
  all: specialize (Hi eq_refl); discriminate.
Qed.

(** Once the read loop is past [if !silent], [errHandler] is not called. *)
Lemma past_report_step s l s' :
  inv s -> past_report (reader s) = true -> step s l = Some s' ->
  past_report (reader s') = true /\ reported s' = reported s.
Proof.
  intros I Hr Hs. pose proof (inv_idle _ I) as Hi.
  step_cases s l Hs; repeat split; auto; try congruence.
  all: specialize (Hi eq_refl); destruct reader0; discriminate.
Qed.

Lemma exited_run tr : forall s s',
  coord s = CoExited -> run s tr = Some s' ->
  coord s' = CoExited /\ stops_taken s' = stops_taken s /\
  done_closes s' = done_closes s /\ crashed s' = crashed s /\
  (stop_waiting s <= stop_waiting s')%nat /\
  (reader s <> RdExited -> reader s' <> RdExited).
Proof.
  induction tr as [|l tr IH]; intros s s' Hc Hr; simpl in Hr.
  - injection Hr as <-. repeat split; auto.
  - destruct (step s l) as [s1|] eqn:E; [|discriminate].
    destruct (exited_step _ _ _ Hc E) as (H1 & H2 & H3 & H4 & H5 & H6).
    destruct (IH _ _ H1 Hr) as (K1 & K2 & K3 & K4 & K5 & K6).
    repeat split; try congruence; try lia. auto.
Qed.

Lemma returned_run tr : forall s s',
  inv s -> reader s = RdExited -> run s tr = Some s' ->
  reader s' = RdExited /\ handled s' = handled s.
Proof.
  induction tr as [|l tr IH]; intros s s' I Hc Hr; simpl in Hr.
  - injection Hr as <-. auto.
  - destruct (step s l) as [s1|] eqn:E; [|discriminate].
    destruct (returned_step _ _ _ I Hc E) as [H1 H2].
    destruct (IH _ _ (inv_step _ _ _ I E) H1 Hr) as [K1 K2]. split; congruence.
Qed.

Lemma past_report_run tr : forall s s',
  inv s -> past_report (reader s) = true -> run s tr = Some s' ->
  past_report (reader s') = true /\ reported s' = reported s.
Proof.
  induction tr as [|l tr IH]; intros s s' I Hc Hr; simpl in Hr.
  - injection Hr as <-. auto.
  - destruct (step s l) as [s1|] eqn:E; [|discriminate].
    destruct (past_report_step _ _ _ I Hc E) as [H1 H2].
    destruct (IH _ _ (inv_step _ _ _ I E) H1 Hr) as [K1 K2]. split; congruence.
Qed.

Lemma crashed_run tr s s' :
  crashed s = true -> run s tr = Some s' -> s' = s.
Proof.
  intros Hc. destruct tr as [|l tr]; simpl.
  - now intros [= <-].
  - unfold step. rewrite Hc. discriminate.
Qed.

Lemma done_closed_exited s :
  inv s -> done_closed s = true -> coord s = CoExited.
Proof.
  intros I. unfold done_closed. rewrite (inv_done _ I).
  destruct (coord s); simpl; congruence.
Qed.

(** ** The done channel *)

Lemma finish_closes s :
  inv s -> got_signal (coord s) = true \/ reader s = RdSend ->
  exists s', run s (finish (coord s)) = Some s' /\ done_closed s' = true /\
             reported s' = reported s /\ handled s' = handled s.
Proof.
  intros I H.
  pose proof (inv_done _ I) as Hd. pose proof (inv_crash _ I) as Hc.
  pose proof (inv_idle _ I) as Hi.
  destruct s as [sk dc sw st sil co rd k lr ts hd rp cr]; simpl in *.
  destruct cr.
  - destruct (Hc eq_refl) as (-> & _). simpl in Hd. subst dc.
    eexists; repeat split; reflexivity.
  - specialize (Hi eq_refl).
    destruct co; simpl in *; subst dc;
      try (unfold step; simpl; eexists; repeat split; reflexivity).
    + destruct H as [H| ->]; discriminate.
    + destruct H as [H| ->]; [discriminate|].
      unfold step; simpl; eexists; repeat split; reflexivity.
Qed.

(** C5.  Along every schedule, whatever the order of caller stops and read
    errors: [close(doneCh)] has run at most once; it has run exactly once
    precisely when the coordinator has returned; and as soon as the
    coordinator has taken a stop signal, or the read loop is at its send,
    or a caller waits to send while the coordinator selects, the
    coordinator's statements lead to the close. *)
Theorem done_closed_exactly_once tr s :
  run init tr = Some s ->
  (done_closes s <= 1)%nat /\
  (coord s = CoExited <-> done_closes s = 1%nat) /\
  (got_signal (coord s) = true \/ reader s = RdSend ->
   exists s', run s (finish (coord s)) = Some s' /\ done_closes s' = 1%nat) /\
  (coord s = CoSelect -> (0 < stop_waiting s)%nat ->
   exists s', run s [CoTakeCallerStop; CoSilence; CoClose] = Some s' /\
              done_closes s' = 1%nat).
Proof.
  intros Hr. assert (I : inv s) by (apply inv_reachable; eexists; eauto).
  pose proof (inv_done _ I) as Hd.
  split; [|split; [|split]]; cycle 3.
  { intros Hc Hw. pose proof (inv_crash _ I) as Hcr.
    destruct (crashed s) eqn:E.
    { destruct (Hcr eq_refl) as (H & _). congruence. }
    rewrite Hc in Hd. simpl in Hd.
    destruct s as [sk dc sw st sil co rd k lr ts hd rp cr]; simpl in *.
    subst. destruct sw as [|n]; [lia|].
    unfold step; simpl. eexists; split; reflexivity. }
  - rewrite Hd. destruct (exited (coord s)); lia.
  - rewrite Hd. destruct (coord s); simpl; split; congruence.
  - intros H. destruct (finish_closes s I H) as (s' & R & D & _).
    exists s'. split; [exact R|].
    assert (I' : inv s') by (eapply inv_run; eauto).
    rewrite (inv_done _ I').
    rewrite (done_closed_exited _ I' D). reflexivity.
Qed.

(** C1, as the code has it.  When [doneCh] is closed and the coordinator
    received no caller stop, the read loop has returned and no handler call
    follows.  When it is closed after a caller's stop, the read loop has not
    returned, and it never will. *)
Theorem done_after_read_loop_without_stop tr s :
  run init tr = Some s -> done_closed s = true ->
  (stops_taken s = 0%nat ->
     (crashed s = false -> reader s = RdExited) /\
     forall tr' s', run s tr' = Some s' -> handled s' = handled s) /\
  (stops_taken s <> 0%nat ->
     forall tr' s', run s tr' = Some s' -> reader s' <> RdExited).
Proof.
  intros Hr Hd. assert (I : inv s) by (apply inv_reachable; eexists; eauto).
  pose proof (done_closed_exited _ I Hd) as Hc.
  pose proof (inv_signals _ I) as Hg. pose proof (inv_crash _ I) as Hcr.
  rewrite Hc in Hg. unfold signals in Hg. simpl in Hg.
  split.
  - intros H0.
    assert (Hx : crashed s = false -> reader s = RdExited).
    { intros E. specialize (Hg E). rewrite H0 in Hg.
      destruct (reader s); simpl in Hg; try discriminate. reflexivity. }
    split; [exact Hx|]. intros tr' s' R.
    destruct (crashed s) eqn:E.
    + now rewrite (crashed_run _ _ _ E R).
    + exact (proj2 (returned_run _ _ _ I (Hx eq_refl) R)).
  - intros H1 tr' s' R.
    destruct (crashed s) eqn:E.
    + destruct (Hcr eq_refl) as (_ & _ & _ & H0 & _). congruence.
    + apply (exited_run _ _ _ Hc R). specialize (Hg eq_refl).
      intros Hx. rewrite Hx in Hg. lia.
Qed.

(** C2, as the code has it.  After [doneCh] is closed a send on [stopCh]
    is never received: the callers that wait keep waiting, and nothing
    panics. *)
Theorem stop_after_done_blocks tr s :
  run init tr = Some s -> done_closed s = true ->
  forall tr' s', run s tr' = Some s' ->
    stops_taken s' = stops_taken s /\
    (stop_waiting s <= stop_waiting s')%nat /\
    crashed s' = crashed s.
Proof.
  intros Hr Hd tr' s' R.
  assert (I : inv s) by (apply inv_reachable; eexists; eauto).
  pose proof (done_closed_exited _ I Hd) as Hc.
  destruct (exited_run _ _ _ Hc R) as (_ & H2 & _ & H4 & H5 & _).
  auto.
Qed.

(** ** The socket and the read loop *)

Lemma ReadMessage_inr c f e :
  readLimit c = 655350 -> closed c = false -> ReadMessage c f = inr e ->
  e = ErrReadLimit /\ fits f = false.
Proof.
  unfold ReadMessage, fits. intros -> ->. simpl.
  destruct (655350 <? msg_len f) eqn:E; [|discriminate].
  intros [= <-]. split; [reflexivity|]. apply Z.ltb_lt in E.
  apply Z.leb_gt. exact E.
Qed.

(** While the read loop is inside [ReadMessage], only the connection gets
    it out. *)
Lemma blocked_step s l s' :
  reader s = RdRead -> from_peer l = false -> step s l = Some s' ->
  reader s' = RdRead.
Proof.
  intros Hr Hl Hs. step_cases s l Hs; auto; discriminate.
Qed.

Lemma blocked_run tr : forall s s',
  reader s = RdRead -> Forall (fun l => from_peer l = false) tr ->
  run s tr = Some s' -> reader s' = RdRead.
Proof.
  induction tr as [|l tr IH]; intros s s' Hr Hf R; simpl in R.
  - now injection R as <-.
  - destruct (step s l) as [s1|] eqn:E; [|discriminate].
    inversion Hf; subst. apply (IH s1 s'); auto.
    eapply blocked_step; eauto.
Qed.

(** C4, as the code has it.  No statement of the session closes the
    socket.  When a caller raises stop while the read loop is blocked in
    [ReadMessage], stop-handling sets [silent] and closes [doneCh], leaves
    the socket as it was, and the read loop stays blocked until the
    connection itself delivers a frame or fails. *)
Theorem stop_leaves_socket_open tr s :
  run init tr = Some s ->
  closed (sock s) = false /\
  (coord s = CoSelect -> reader s = RdRead ->
   exists s1,
     run s [CallerStop; CoTakeCallerStop; CoSilence; CoClose] = Some s1 /\
     sock s1 = sock s /\ silent s1 = true /\ done_closed s1 = true /\
     reader s1 = RdRead /\
     forall tr' s', Forall (fun l => from_peer l = false) tr' ->
       run s1 tr' = Some s' ->
       reader s' = RdRead /\ closed (sock s') = false).
Proof.
  intros Hr. assert (I : inv s) by (apply inv_reachable; eexists; eauto).
  split; [exact (inv_open _ I)|]. intros Hc Hrd.
  pose proof (inv_crash _ I) as Hcr. pose proof (inv_done _ I) as Hd.
  destruct (crashed s) eqn:E.
  { destruct (Hcr eq_refl) as (H & _). congruence. }
  assert (R : exists s1,
    run s [CallerStop; CoTakeCallerStop; CoSilence; CoClose] = Some s1 /\
    sock s1 = sock s /\ silent s1 = true /\ done_closed s1 = true /\
    reader s1 = RdRead).
  { destruct s as [sk dc sw st sil co rd k lr ts hd rp cr]; simpl in *.
    subst. unfold step; simpl. eexists; repeat split; reflexivity. }
  destruct R as (s1 & R & H1 & H2 & H3 & H4).
  exists s1. repeat split; auto.
  - eapply blocked_run; eauto.
  - apply inv_open. eapply inv_run; [|exact H0].
    eapply inv_run; [exact I|exact R].
Qed.

(** C6, as the code has it.  When the read loop holds a read error, its
    test of [silent] decides: [errHandler] has not been called before; it is
    called now, once, with that error if the flag is unset, which is so
    whenever the coordinator has received no caller stop by then, and it
    is not called if the flag is set.  Whatever happens next, no further
    call is made, and from every later state the coordinator's own
    statements close [doneCh]. *)
Theorem read_error_reported_unless_silent tr s e :
  run init tr = Some s -> reader s = RdErr e ->
  reported s = [] /\
  (stops_taken s = 0%nat -> silent s = false) /\
  exists s1, step s RdReport = Some s1 /\
    reported s1 = (if silent s then [] else [e]) /\
    forall tr' s', run s1 tr' = Some s' ->
      reported s' = reported s1 /\
      exists s'', run s' (finish (coord s')) = Some s'' /\
                  done_closed s'' = true /\ reported s'' = reported s1.
Proof.
  intros Hr Hrd. assert (I : inv s) by (apply inv_reachable; eexists; eauto).
  pose proof (inv_crash _ I) as Hcr. pose proof (inv_signals _ I) as Hg.
  pose proof (inv_silent _ I) as Hs. pose proof (inv_reported _ I) as Hrp.
  destruct (crashed s) eqn:E.
  { destruct (Hcr eq_refl) as (_ & H & _). congruence. }
  specialize (Hg eq_refl). unfold signals in Hg. rewrite Hrd in Hg.
  simpl in Hg, Hs.
  assert (Hnil : reported s = []).
  { destruct Hrp as [H|(e0 & _ & H)]; [exact H|].
    rewrite Hrd in H. discriminate. }
  split; [exact Hnil|]. split.
  { intros H0. rewrite H0 in Hg. rewrite Hs.
    destruct (coord s); simpl in *; auto; discriminate. }
  assert (S1 : exists s1, step s RdReport = Some s1 /\
                          reported s1 = (if silent s then [] else [e]) /\
                          reader s1 = RdSend).
  { unfold step. rewrite E, Hrd. eexists. split; [reflexivity|].
    destruct (silent s); simpl; rewrite Hnil; auto. }
  destruct S1 as (s1 & S1 & R1 & P1). exists s1.
  split; [exact S1|]. split; [exact R1|].
  intros tr' s' R.
  assert (I1 : inv s1) by (eapply inv_step; eauto).
  assert (I' : inv s') by (eapply inv_run; eauto).
  destruct (past_report_run tr' s1 s' I1) as [P' R']; auto.
  { rewrite P1. reflexivity. }
  split; [exact R'|].
  destruct (finish_closes s' I') as (s'' & F1 & F2 & F3 & _).
  - pose proof (inv_signals _ I') as Hg'. pose proof (inv_crash _ I') as Hc'.
    destruct (reader s') eqn:Er; simpl in P'; try discriminate; auto.
    left. destruct (crashed s') eqn:E'.
    + destruct (Hc' eq_refl) as (_ & H & _). congruence.
    + specialize (Hg' eq_refl). unfold signals in Hg'. rewrite Er in Hg'.
      destruct (got_signal (coord s')); auto. lia.
  - exists s''. repeat split; auto. congruence.
Qed.

(** ** Keepalive *)

Lemma ka_exited_step s l s' :
  inv s -> ka s = KaExited -> step s l = Some s' -> ka s' = KaExited.
Proof.
  intros I Hk Hs. pose proof (inv_pre _ I) as Hp.
  step_cases s l Hs; auto; try discriminate.
  all: destruct Hp as [Hp _]; auto; discriminate.
Qed.

Lemma ka_exited_run tr : forall s s',
  inv s -> ka s = KaExited -> run s tr = Some s' -> ka s' = KaExited.
Proof.
  induction tr as [|l tr IH]; intros s s' I Hk R; simpl in R.
  - now injection R as <-.
  - destruct (step s l) as [s1|] eqn:E; [|discriminate].
    eapply IH; [eapply inv_step; eauto| |exact R].
    eapply ka_exited_step; eauto.
Qed.

(** C8, as the code has it.  At a tick where the time since the last pong
    exceeds the timeout, the keepalive loop returns and its ticker is
    stopped, for good; the socket is left exactly as it was, open, and
    neither the read loop nor the coordinator is touched. *)
Theorem keepalive_timeout_stops_probing tr s now :
  run init tr = Some s -> ka s = KaTick ->
  Since now (lastResponse s) > WebsocketTimeout ->
  exists s', step s (KaTicked now) = Some s' /\
    ka s' = KaExited /\ ticker_stopped s' = true /\
    sock s' = sock s /\ closed (sock s') = false /\
    reader s' = reader s /\ coord s' = coord s /\
    done_closes s' = done_closes s /\
    forall tr' s'', run s' tr' = Some s'' ->
      ka s'' = KaExited /\ closed (sock s'') = false.
Proof.
  intros Hr Hk Ht. assert (I : inv s) by (apply inv_reachable; eexists; eauto).
  pose proof (inv_crash _ I) as Hcr.
  destruct (crashed s) eqn:E.
  { destruct (Hcr eq_refl) as (_ & _ & H & _). congruence. }
  assert (G : (Since now (lastResponse s) >? WebsocketTimeout) = true).
  { apply Z.gtb_lt. lia. }
  assert (S1 : exists s', step s (KaTicked now) = Some s' /\
    ka s' = KaExited /\ ticker_stopped s' = true /\ sock s' = sock s /\
    reader s' = reader s /\ coord s' = coord s /\
    done_closes s' = done_closes s).
  { unfold step. rewrite E, Hk, G. eexists. repeat split; reflexivity. }
  destruct S1 as (s' & S1 & K1 & K2 & K3 & K4 & K5 & K6).
  assert (I' : inv s') by (eapply inv_step; eauto).
  exists s'. repeat split; auto.
  - apply (inv_open _ I').
  - eapply ka_exited_run; eauto.
  - apply inv_open. eapply inv_run; eauto.
Qed.

(** ** Message delivery *)

Lemma accepted_app tr1 tr2 :
  accepted (tr1 ++ tr2) = accepted tr1 ++ accepted tr2.
Proof.
  induction tr1 as [|l tr1 IH]; simpl; [reflexivity|].
  destruct l; auto. destruct (fits f); simpl; congruence.
Qed.

Lemma handled_follows_step s l s' :
  inv s -> step s l = Some s' ->
  handled s' ++ in_flight s' = (handled s ++ in_flight s) ++ accepted [l].
Proof.
  intros I Hs. pose proof (inv_open _ I) as Ho.
  pose proof (inv_limit _ I) as Hl. pose proof (inv_pre _ I) as Hp.
  pose proof (inv_idle _ I) as Hi.
  unfold in_flight.
  step_cases s l Hs; rewrite ?app_nil_r; auto; try discriminate.
  1-2: specialize (Hi eq_refl); destruct reader0; try discriminate;
    now rewrite app_nil_r.
  - apply ReadMessage_inl in Heqs; [|assumption].
    destruct Heqs as [-> ->]. reflexivity.
  - apply ReadMessage_inr in Heqs; try assumption.
    destruct Heqs as [_ ->]. now rewrite app_nil_r.
Qed.

Lemma handled_follows tr : forall s,
  run init tr = Some s -> handled s ++ in_flight s = accepted tr.
Proof.
  induction tr as [|l tr IH] using rev_ind; intros s R.
  - injection R as <-. reflexivity.
  - rewrite run_snoc in R. destruct (run init tr) as [s0|] eqn:E; [|discriminate].
    rewrite accepted_app, <- (IH s0 eq_refl).
    apply handled_follows_step; [|exact R].
    apply inv_reachable. exists tr. exact E.
Qed.

Lemma deliver_run fs : forall s,
  inv s -> reader s = RdRead -> Forall (fun f => fits f = true) fs ->
  exists s', run s (deliver fs) = Some s' /\
             handled s' = handled s ++ fs /\ reader s' = RdRead.
Proof.
  induction fs as [|f fs IH]; intros s I Hr Hf.
  - exists s. rewrite app_nil_r. auto.
  - inversion Hf as [|? ? Hf1 Hf2]; subst.
    pose proof (inv_crash _ I) as Hcr. pose proof (inv_open _ I) as Ho.
    pose proof (inv_limit _ I) as Hl.
    destruct (crashed s) eqn:E.
    { destruct (Hcr eq_refl) as (_ & H & _). congruence. }
    assert (RM : ReadMessage (sock s) f = inl f).
    { unfold ReadMessage. rewrite Ho, Hl. simpl. unfold fits in Hf1.
      apply Z.leb_le in Hf1.
      destruct (655350 <? msg_len f) eqn:L; [|reflexivity].
      apply Z.ltb_lt in L. lia. }
    assert (S2 : exists s2, run s [RdFrame f; RdHandler] = Some s2 /\
                            handled s2 = handled s ++ [f] /\ reader s2 = RdRead).
    { unfold run, step. rewrite E, Hr, RM. simpl. rewrite E.
      eexists. repeat split; reflexivity. }
    destruct S2 as (s2 & R2 & H2 & Hr2).
    destruct (IH s2) as (s' & R' & H' & Hr'); auto.
    { eapply inv_run; eauto. }
    exists s'. split; [|split; auto].
    + change (deliver (f :: fs)) with ([RdFrame f; RdHandler] ++ deliver fs).
      rewrite run_app, R2. exact R'.
    + rewrite H', H2, <- app_assoc. reflexivity.
Qed.

(** C9.  Along every schedule the handler calls made so far, followed by
    the message the read loop currently holds, are exactly the frames
    [ReadMessage] has returned, in the order received.  A frame is read
    only when every earlier one has been handed over.  And for frames
    [fs] arriving at a read loop that waits in [ReadMessage], the loop
    makes exactly these calls, one per frame, in order. *)
Theorem handler_calls_follow_frames tr s :
  run init tr = Some s ->
  handled s ++ in_flight s = accepted tr /\
  (forall f s', step s (RdFrame f) = Some s' -> handled s = accepted tr) /\
  (forall fs, reader s = RdRead -> Forall (fun f => fits f = true) fs ->
     exists s', run s (deliver fs) = Some s' /\
                handled s' = handled s ++ fs /\
                List.length (handled s') =
                (List.length (handled s) + List.length fs)%nat).
Proof.
  intros R. pose proof (handled_follows tr s R) as H.
  assert (I : inv s) by (apply inv_reachable; eexists; eauto).
  split; [exact H|]. split.
  - intros f s' Hs. rewrite <- H. unfold step in Hs.
    destruct (crashed s); [discriminate|]. unfold in_flight.
    destruct (reader s); try discriminate. now rewrite app_nil_r.
  - intros fs Hr Hf. destruct (deliver_run fs s I Hr Hf) as (s' & R' & H' & _).
    exists s'. repeat split; auto. rewrite H', length_app. reflexivity.
Qed.


(** ** The silent flag *)

Lemma silent_step s l s' :
  inv s -> silent s = true -> step s l = Some s' ->
  silent s' = true /\ reported s' = reported s.
Proof.
  intros I Hsil Hs. pose proof (inv_silent _ I) as H.
  step_cases s l Hs; auto; try discriminate.
Qed.

(** Once the coordinator has run [silent = true], [errHandler] is not
    called any more. *)
Lemma silent_suppresses tr : forall s s',
  inv s -> silent s = true -> run s tr = Some s' ->
  reported s' = reported s.
Proof.
  induction tr as [|l tr IH]; intros s s' I Hsil R; simpl in R.
  - now injection R as <-.
  - destruct (step s l) as [s1|] eqn:E; [|discriminate].
    destruct (silent_step _ _ _ I Hsil E) as [H1 H2].
    rewrite <- H2. apply IH; auto. eapply inv_step; eauto.
Qed.

(** ** Further properties of the session *)

(** After a read error the loop reads no more and calls no handler. *)
Lemma after_error_step s l s' :
  inv s -> after_error (reader s) = true -> step s l = Some s' ->
  after_error (reader s') = true /\ handled s' = handled s.
Proof.
  intros I Hr Hs. pose proof (inv_idle _ I) as Hi.
  step_cases s l Hs; repeat split; auto; try discriminate.
  all: specialize (Hi eq_refl); destruct reader0; discriminate.
Qed.

Lemma after_error_run tr : forall s s',
  inv s -> after_error (reader s) = true -> run s tr = Some s' ->
  after_error (reader s') = true /\ handled s' = handled s.
Proof.
  induction tr as [|l tr IH]; intros s s' I Hc Hr; simpl in Hr.
  - injection Hr as <-. auto.
  - destruct (step s l) as [s1|] eqn:E; [|discriminate].
    destruct (after_error_step _ _ _ I Hc E) as [H1 H2].
    destruct (IH _ _ (inv_step _ _ _ I E) H1 Hr) as [K1 K2]. split; congruence.
Qed.

(** A report made while no caller stop had been taken did call
    [errHandler]. *)
Lemma reported_step s l s' :
  inv s ->
  (past_report (reader s) = true -> stops_taken s = 0%nat -> reported s <> []) ->
  step s l = Some s' ->
  (past_report (reader s') = true -> stops_taken s' = 0%nat -> reported s' <> []).
Proof.
  intros I K Hs. pose proof (inv_signals _ I) as Hg.
  pose proof (inv_silent _ I) as Hsil. pose proof (inv_idle _ I) as Hi.
  unfold signals in Hg.
  step_cases s l Hs; auto; try discriminate.
  - intros _ H0. subst. specialize (Hg eq_refl). simpl in Hg.
    destruct coord0; simpl in *; discriminate.
  - intros _ _. destruct reported0; discriminate.
Qed.

Lemma reported_run tr s :
  run init tr = Some s ->
  past_report (reader s) = true -> stops_taken s = 0%nat -> reported s <> [].
Proof.
  intros R.
  assert (H : inv s /\
    (past_report (reader s) = true -> stops_taken s = 0%nat -> reported s <> [])).
  { apply (run_preserves (fun s => inv s /\
      (past_report (reader s) = true -> stops_taken s = 0%nat ->
       reported s <> [])) ) with (tr := tr) (s := init); [| |exact R].
    - intros s0 l s1 [I K] Hs. split.
      + eapply inv_step; eauto.
      + eapply reported_step; eauto.
    - split; [exact inv_init|]. discriminate. }
  exact (proj2 H).
Qed.

(** X3.  In every schedule [errHandler] has been called at most once, and
    once it has been called neither it nor [handler] is called again. *)
Theorem errHandler_at_most_once tr s :
  run init tr = Some s ->
  (List.length (reported s) <= 1)%nat /\
  (reported s <> [] ->
   forall tr' s', run s tr' = Some s' ->
     reported s' = reported s /\ handled s' = handled s).
Proof.
  intros R. assert (I : inv s) by (apply inv_reachable; eexists; eauto).
  destruct (inv_reported _ I) as [H|(e & H & P)].
  - rewrite H. split; [simpl; lia|]. intros K. congruence.
  - rewrite H. split; [simpl; lia|]. intros _ tr' s' R'.
    rewrite <- H. split.
    + exact (proj2 (past_report_run _ _ _ I P R')).
    + apply (after_error_run tr' s s' I); [|exact R'].
      destruct (reader s); simpl in *; congruence.
Qed.

(** X4.  A read error is final: from the moment [ReadMessage] has returned
    an error the loop never reads again, whatever arrives, and [handler] is
    not called any more. *)
Theorem read_error_is_final tr s e :
  run init tr = Some s -> reader s = RdErr e ->
  forall tr' s', run s tr' = Some s' ->
    handled s' = handled s /\
    (forall f, step s' (RdFrame f) = None) /\
    (forall e', step s' (RdFail e') = None).
Proof.
  intros R Hr tr' s' R'.
  assert (I : inv s) by (apply inv_reachable; eexists; eauto).
  destruct (after_error_run tr' s s' I) as [A H]; auto.
  { rewrite Hr. reflexivity. }
  split; [exact H|].
  split; intros; unfold step; destruct (crashed s'); auto;
    destruct (reader s'); simpl in A; try discriminate; reflexivity.
Qed.

(** X5.  The [case <-doneCh] of the coordinator's select never fires: while
    the coordinator selects, [doneCh] is open. *)
Theorem done_case_never_fires tr s :
  run init tr = Some s -> step s CoTakeDone = None.
Proof.
  intros R. assert (I : inv s) by (apply inv_reachable; eexists; eauto).
  pose proof (inv_done _ I) as Hd.
  unfold step, done_closed. destruct (crashed s); [reflexivity|].
  destruct (coord s); try reflexivity. simpl in Hd. rewrite Hd. reflexivity.
Qed.


(** X7.  When the read loop has returned, [errHandler] has been called,
    exactly once; so when [doneCh] is closed and no caller stop was taken,
    the error has already been reported. *)
Theorem error_reported_before_done tr s :
  run init tr = Some s ->
  (reader s = RdExited -> exists e, reported s = [e]) /\
  (done_closed s = true -> stops_taken s = 0%nat -> crashed s = false ->
   exists e, reported s = [e]).
Proof.
  intros R. assert (I : inv s) by (apply inv_reachable; eexists; eauto).
  pose proof (inv_signals _ I) as Hg.
  assert (K : reader s = RdExited -> exists e, reported s = [e]).
  { intros Hr.
    assert (S0 : stops_taken s = 0%nat).
    { pose proof (inv_crash _ I) as Hc. destruct (crashed s) eqn:E.
      - destruct (Hc eq_refl) as (_ & _ & _ & H0 & _). exact H0.
      - specialize (Hg eq_refl). unfold signals in Hg. rewrite Hr in Hg.
        destruct (got_signal (coord s)); lia. }
    pose proof (reported_run tr s R) as N. rewrite Hr in N.
    specialize (N eq_refl S0).
    destruct (inv_reported _ I) as [H|(e & H & _)]; [congruence|eauto]. }
  split; [exact K|]. intros Hd H0 E. apply K.
  pose proof (done_closed_exited _ I Hd) as Hc.
  specialize (Hg E). unfold signals in Hg. rewrite Hc, H0 in Hg. simpl in Hg.
  destruct (reader s); simpl in Hg; try discriminate. reflexivity.
Qed.

(** From a read error in hand, with the coordinator in its select and
    [silent] unset, to the close of [doneCh]. *)
Lemma report_and_finish_run s e :
  crashed s = false -> reader s = RdErr e -> coord s = CoSelect ->
  silent s = false -> done_closes s = 0%nat ->
  exists s', run s report_and_finish = Some s' /\
    reported s' = reported s ++ [e] /\ handled s' = handled s /\
    done_closed s' = true /\ reader s' = RdExited /\ sock s' = sock s /\
    stops_taken s' = stops_taken s /\ crashed s' = false.
Proof.
  intros Hc Hr Hco Hs Hd.
  destruct s as [sk dc sw st sil co rd k lr ts hd rp cr]; simpl in *. subst.
  unfold report_and_finish, run, step; simpl.
  eexists. repeat split; reflexivity.
Qed.

(** The read loop's own steps leave the coordinator and the flag alone. *)
Lemma deliver_keeps fs : forall s s',
  run s (deliver fs) = Some s' ->
  coord s' = coord s /\ silent s' = silent s /\ reported s' = reported s /\
  done_closes s' = done_closes s /\ stops_taken s' = stops_taken s /\
  crashed s' = crashed s /\ sock s' = sock s.
Proof.
  induction fs as [|f fs IH]; intros s s' R.
  - injection R as <-. repeat split.
  - change (deliver (f :: fs)) with ([RdFrame f; RdHandler] ++ deliver fs) in R.
    rewrite run_app in R.
    destruct (run s [RdFrame f; RdHandler]) as [s2|] eqn:E; [|discriminate].
    destruct (IH _ _ R) as (H1 & H2 & H3 & H4 & H5 & H6 & H7).
    assert (K : coord s2 = coord s /\ silent s2 = silent s /\
                reported s2 = reported s /\ done_closes s2 = done_closes s /\
                stops_taken s2 = stops_taken s /\ crashed s2 = crashed s /\
                sock s2 = sock s).
    { simpl in E. destruct (step s (RdFrame f)) as [s1|] eqn:E1; [|discriminate].
      destruct (step s1 RdHandler) as [s3|] eqn:E3; [|discriminate].
      injection E as <-.
      unfold step in E1. destruct (crashed s) eqn:C; [discriminate|].
      destruct (reader s); try discriminate.
      destruct (ReadMessage (sock s) f); injection E1 as <-;
        unfold step in E3; simpl in E3; rewrite C in E3;
        [|discriminate].
      injection E3 as <-. simpl. rewrite C. repeat split. }
    destruct K as (K1 & K2 & K3 & K4 & K5 & K6 & K7).
    repeat split; congruence.
Qed.

(** X8.  An oversized frame ends the session as a read error: when no
    caller stop has been taken, a frame of more than 655350 bytes arriving
    at the waiting read loop is not handed to [handler]; [errHandler] is
    called once, with [ErrReadLimit], the loop returns and [doneCh] is
    closed. *)
Theorem oversized_frame_ends_session tr s f :
  run init tr = Some s -> reader s = RdRead -> stops_taken s = 0%nat ->
  655350 < msg_len f ->
  exists s', run s (RdFrame f :: report_and_finish) = Some s' /\
    reported s' = [ErrReadLimit] /\ handled s' = handled s /\
    done_closed s' = true /\ reader s' = RdExited.
Proof.
  intros R Hr H0 Hf.
  assert (I : inv s) by (apply inv_reachable; eexists; eauto).
  pose proof (inv_crash _ I) as Hcr. pose proof (inv_signals _ I) as Hg.
  pose proof (inv_silent _ I) as Hs. pose proof (inv_idle _ I) as Hi.
  pose proof (inv_done _ I) as Hd.
  destruct (crashed s) eqn:E.
  { destruct (Hcr eq_refl) as (_ & H & _). congruence. }
  specialize (Hg eq_refl). specialize (Hi eq_refl).
  unfold signals in Hg. rewrite H0, Hr in Hg. rewrite Hr in Hi.
  assert (Hco : coord s = CoSelect).
  { destruct (coord s); simpl in *; try discriminate. reflexivity. }
  rewrite Hco in Hs, Hd. simpl in Hs, Hd.
  assert (Hn : reported s = []).
  { destruct (inv_reported _ I) as [H|(e0 & _ & H)]; [exact H|].
    rewrite Hr in H. discriminate. }
  assert (RM : ReadMessage (sock s) f = inr ErrReadLimit).
  { unfold ReadMessage. rewrite (inv_open _ I), (inv_limit _ I). simpl.
    apply Z.ltb_lt in Hf. now rewrite Hf. }
  assert (S1 : step s (RdFrame f) = Some (set_reader (RdErr ErrReadLimit) s)).
  { unfold step. rewrite E, Hr, RM. reflexivity. }
  destruct (report_and_finish_run (set_reader (RdErr ErrReadLimit) s)
              ErrReadLimit) as (s' & R' & K1 & K2 & K3 & K4 & _); auto.
  exists s'. split.
  - simpl. rewrite S1. exact R'.
  - simpl in K1, K2. rewrite Hn in K1. auto.
Qed.

(** X9.  A whole session: the coordinator starts, the peer sends the frames
    [fs], each within the limit, then the connection fails with [e] and no
    caller raises stop.  Then [handler] has been called with exactly [fs],
    in order, [errHandler] once with [e], [doneCh] is closed once, the read
    loop has returned and the socket has not been closed. *)
Theorem frames_then_error now fs e :
  WebsocketKeepalive = false \/ 0 < WebsocketTimeout ->
  Forall (fun f => fits f = true) fs ->
  exists s',
    run init (CoStart now :: deliver fs ++ RdFail e :: report_and_finish)
      = Some s' /\
    handled s' = fs /\ reported s' = [e] /\ done_closes s' = 1%nat /\
    reader s' = RdExited /\ closed (sock s') = false.
Proof.
  intros Hcfg Hf.
  assert (S1 : exists s1, step init (CoStart now) = Some s1 /\
    reader s1 = RdRead /\ coord s1 = CoSelect /\ silent s1 = false /\
    handled s1 = [] /\ reported s1 = [] /\ done_closes s1 = 0%nat /\
    crashed s1 = false).
  { unfold step, keepAlive; simpl.
    destruct WebsocketKeepalive.
    - destruct Hcfg as [H|H]; [discriminate|].
      apply Z.leb_gt in H. rewrite H. simpl.
      eexists. repeat split; reflexivity.
    - simpl. eexists. repeat split; reflexivity. }
  destruct S1 as (s1 & S1 & A1 & A2 & A3 & A4 & A5 & A6 & A7).
  assert (I1 : inv s1) by (eapply inv_step; [exact inv_init|exact S1]).
  destruct (deliver_run fs s1 I1 A1 Hf) as (s2 & R2 & B1 & B2).
  destruct (deliver_keeps _ _ _ R2) as (C1 & C2 & C3 & C4 & C5 & C6 & C7).
  assert (S3 : step s2 (RdFail e) = Some (set_reader (RdErr e) s2)).
  { unfold step. rewrite C6, A7, B2. reflexivity. }
  destruct (report_and_finish_run (set_reader (RdErr e) s2) e)
    as (s' & R' & K1 & K2 & K3 & K4 & K5 & _); simpl; try congruence.
  assert (Run : run init (CoStart now :: deliver fs ++ RdFail e :: report_and_finish)
                = Some s').
  { simpl. rewrite S1. rewrite run_app, R2. simpl. rewrite S3. exact R'. }
  exists s'. split; [exact Run|].
  assert (I' : inv s') by (eapply inv_run; [exact inv_init|exact Run]).
  simpl in K1, K2. repeat split.
  - rewrite K2, B1, A4. reflexivity.
  - rewrite K1, C3, A5. reflexivity.
  - rewrite (inv_done _ I'). pose proof (done_closed_exited _ I' K3) as H.
    rewrite H. reflexivity.
  - exact K4.
  - apply (inv_open _ I').
Qed.

(** ** Panics *)


(** As long as [stopCh] is not closed the extended session is the session. *)
Lemma xstep_plain s l :
  xstep (s, false) (Plain l) = option_map (fun s' => (s', false)) (step s l).
Proof.
  unfold xstep. destruct (crashed s) eqn:E; [|reflexivity].
  unfold step. rewrite E. reflexivity.
Qed.

Lemma xrun_plain tr : forall s,
  xrun (s, false) (map Plain tr) =
  option_map (fun s' => (s', false)) (run s tr).
Proof.
  induction tr as [|l tr IH]; intros s; [reflexivity|].
  cbn [map xrun run]. rewrite xstep_plain.
  destruct (step s l) as [s1|]; simpl; [apply IH|reflexivity].
Qed.



(** X18.  Closing [stopCh] arms a panic: once the channel is closed, a read
    error in the waiting read loop takes the loop to its send on the closed
    channel, which panics; no handler is called on the way when [silent] is
    set. *)
Theorem read_error_after_close_panics s e :
  crashed s = false -> reader s = RdRead ->
  exists s',
    xrun (s, true) [Plain (RdFail e); Plain RdReport; RdSendClosed]
      = Some (s', true) /\
    crashed s' = true /\ handled s' = handled s /\
    reported s' = (if silent s then reported s else reported s ++ [e]).
Proof.
  intros Hc Hr.
  destruct s as [sk dc sw st sil co rd k lr ts hd rp cr]; simpl in *. subst.
  unfold xrun, xstep, step; simpl.
  destruct sil; simpl; eexists; repeat split; reflexivity.
Qed.

Lemma bad_timeout_step s l s' :
  WebsocketKeepalive = true -> WebsocketTimeout <= 0 ->
  (reader s = RdIdle /\ ka s = KaOff /\ handled s = [] /\ reported s = [] /\
   (coord s = CoInit /\ crashed s = false /\ done_closes s = 0%nat \/
    coord s = CoExited /\ crashed s = true /\ done_closes s = 1%nat)) ->
  step s l = Some s' ->
  (reader s' = RdIdle /\ ka s' = KaOff /\ handled s' = [] /\ reported s' = [] /\
   (coord s' = CoInit /\ crashed s' = false /\ done_closes s' = 0%nat \/
    coord s' = CoExited /\ crashed s' = true /\ done_closes s' = 1%nat)).
Proof.
  intros Hk Ht (H1 & H2 & H3 & H4 & H5) Hs.
  apply Z.leb_le in Ht.
  destruct H5 as [(H5 & H6 & H7)|(H5 & H6 & H7)].
  - unfold step in Hs. rewrite H6 in Hs.
    destruct l; rewrite ?H5, ?H1, ?H2 in Hs; try discriminate.
    + unfold keepAlive in Hs. rewrite Hk, Ht in Hs. simpl in Hs.
      injection Hs as <-. simpl. rewrite H7. auto 10.
    + injection Hs as <-. simpl. auto 10.
  - unfold step in Hs. rewrite H6 in Hs. discriminate.
Qed.

(** X11.  With keepalive on and a timeout that is not positive the
    coordinator panics in [keepAlive] as soon as it runs: [doneCh] is
    closed by the deferred call, the read loop is never started and
    neither handler is ever called. *)
Theorem bad_timeout_panics_at_start tr s :
  WebsocketKeepalive = true -> WebsocketTimeout <= 0 ->
  run init tr = Some s ->
  reader s = RdIdle /\ handled s = [] /\ reported s = [] /\
  (coord s <> CoInit -> crashed s = true /\ done_closes s = 1%nat).
Proof.
  intros Hk Ht R.
  assert (H : reader s = RdIdle /\ ka s = KaOff /\ handled s = [] /\
    reported s = [] /\
    (coord s = CoInit /\ crashed s = false /\ done_closes s = 0%nat \/
     coord s = CoExited /\ crashed s = true /\ done_closes s = 1%nat)).
  { apply (run_preserves (fun s => reader s = RdIdle /\ ka s = KaOff /\
      handled s = [] /\ reported s = [] /\
      (coord s = CoInit /\ crashed s = false /\ done_closes s = 0%nat \/
       coord s = CoExited /\ crashed s = true /\ done_closes s = 1%nat)))
      with (tr := tr) (s := init); [| |exact R].
    - intros s0 l s1 P Hs. eapply bad_timeout_step; eauto.
    - simpl. auto 10. }
  destruct H as (H1 & _ & H3 & H4 & H5). repeat split; auto.
  - destruct H5 as [(H5 & _)|(_ & H6 & _)]; [congruence|exact H6].
  - destruct H5 as [(H5 & _)|(_ & _ & H7)]; [congruence|exact H7].
Qed.

(** ** More on keepalive *)

Lemma ka_off_step s l s' :
  WebsocketKeepalive = false -> ka s = KaOff -> step s l = Some s' ->
  ka s' = KaOff.
Proof.
  intros Hk Ho Hs. unfold step in Hs.
  destruct (crashed s); [discriminate|].
  destruct l; rewrite ?Hk, ?Ho in Hs; simpl in Hs; break_step Hs;
    injection Hs as <-; simpl; auto.
Qed.

(** X12.  With keepalive off no ping is ever written, no tick is ever
    waited for and no pong handler is installed on the socket. *)
Theorem keepalive_off_never_probes tr s :
  WebsocketKeepalive = false -> run init tr = Some s ->
  ka s = KaOff /\ pongHandler (sock s) = false /\
  (forall ok, step s (KaWrite ok) = None) /\
  (forall now, step s (KaTicked now) = None) /\
  (forall now, step s (Pong now) = None).
Proof.
  intros Hk R. assert (I : inv s) by (apply inv_reachable; eexists; eauto).
  assert (Ho : ka s = KaOff).
  { apply (run_preserves (fun s => ka s = KaOff)) with (tr := tr) (s := init);
      [|reflexivity|exact R].
    intros s0 l s1 P Hs. eapply ka_off_step; eauto. }
  destruct (inv_ka _ I) as [Hp _]. rewrite Ho in Hp. simpl in Hp.
  repeat split; auto; intros; unfold step; destruct (crashed s); auto;
    rewrite ?Ho, ?Hp; auto.
  destruct (reader s); reflexivity.
Qed.

(** X13.  A running keepalive loop ends only by itself: if a step ends it,
    that step is a ping whose write failed or a tick at which the time
    since the last pong exceeds the timeout.  A caller's stop, the close of
    [doneCh] and a read error do not end it. *)
Theorem keepalive_ends_only_by_itself tr s l s' :
  run init tr = Some s -> step s l = Some s' ->
  probing (ka s) = true -> ka s' = KaExited ->
  (l = KaWrite false /\ ka s = KaPing) \/
  (exists now, l = KaTicked now /\ ka s = KaTick /\
               Since now (lastResponse s) > WebsocketTimeout).
Proof.
  intros R Hs Hp He. assert (I : inv s) by (apply inv_reachable; eexists; eauto).
  pose proof (inv_open _ I) as Ho. pose proof (inv_pre _ I) as Hpre.
  step_cases s l Hs; subst; simpl in *; try discriminate.
  all: try (destruct Hpre as [Hpre _]; [reflexivity|]; subst; discriminate).
  - left. destruct ok; [rewrite Ho in *; discriminate|auto].
  - right. exists now. repeat split. apply Z.gtb_lt in Heqb0. lia.
Qed.

(** X14.  The keepalive loop outlives the session: after [doneCh] is
    closed a due ping is still written, and a tick within the timeout still
    leads to the next ping. *)
Theorem keepalive_outlives_done tr s :
  run init tr = Some s -> done_closed s = true ->
  (ka s = KaPing ->
   exists s', step s (KaWrite true) = Some s' /\ ka s' = KaTick) /\
  (forall now, ka s = KaTick -> Since now (lastResponse s) <= WebsocketTimeout ->
   exists s', step s (KaTicked now) = Some s' /\ ka s' = KaPing).
Proof.
  intros R Hd. assert (I : inv s) by (apply inv_reachable; eexists; eauto).
  pose proof (inv_open _ I) as Ho. pose proof (inv_crash _ I) as Hc.
  split.
  - intros Hk. destruct (crashed s) eqn:E.
    { destruct (Hc eq_refl) as (_ & _ & H & _). congruence. }
    unfold step. rewrite E, Hk, Ho. simpl. eexists; split; reflexivity.
  - intros now Hk Ht. destruct (crashed s) eqn:E.
    { destruct (Hc eq_refl) as (_ & _ & H & _). congruence. }
    unfold step. rewrite E, Hk.
    assert (G : (Since now (lastResponse s) >? WebsocketTimeout) = false).
    { destruct (Since now (lastResponse s) >? WebsocketTimeout) eqn:G; auto.
      apply Z.gtb_lt in G. lia. }
    rewrite G. eexists; split; reflexivity.
Qed.

(** X15.  A pong resets the idle clock: when the read loop is in
    [ReadMessage] and a pong arrives at time [p], a tick at a time [now]
    with [Since now p] within the timeout sends the loop to its next ping. *)
Theorem pong_keeps_probing tr s p now :
  run init tr = Some s -> ka s = KaTick -> reader s = RdRead ->
  Since now p <= WebsocketTimeout ->
  exists s', run s [Pong p; KaTicked now] = Some s' /\
             ka s' = KaPing /\ lastResponse s' = p.
Proof.
  intros R Hk Hr Ht. assert (I : inv s) by (apply inv_reachable; eexists; eauto).
  pose proof (inv_open _ I) as Ho. pose proof (inv_crash _ I) as Hc.
  destruct (inv_ka _ I) as [Hp _]. rewrite Hk in Hp. simpl in Hp.
  destruct (crashed s) eqn:E.
  { destruct (Hc eq_refl) as (_ & _ & H & _). congruence. }
  assert (G : (Since now p >? WebsocketTimeout) = false).
  { destruct (Since now p >? WebsocketTimeout) eqn:G; auto.
    apply Z.gtb_lt in G. lia. }
  unfold run, step. rewrite E, Hr, Hp, Ho. simpl. rewrite E, Hk. simpl.
  rewrite G. eexists; repeat split; reflexivity.
Qed.

(** X16.  Once the coordinator has run [silent = true] the flag stays set
    and [errHandler] is never called again. *)
Theorem silent_stays_and_suppresses tr s :
  run init tr = Some s -> silent s = true ->
  forall tr' s', run s tr' = Some s' ->
    silent s' = true /\ reported s' = reported s.
Proof.
  intros R Hs tr' s' R'.
  assert (I : inv s) by (apply inv_reachable; eexists; eauto).
  clear R. revert s Hs I R'.
  induction tr' as [|l tr' IH]; intros s Hs I R'; simpl in R'.
  - injection R' as <-. auto.
  - destruct (step s l) as [s1|] eqn:E; [|discriminate].
    destruct (silent_step _ _ _ I Hs E) as [H1 H2].
    destruct (IH s1 H1 (inv_step _ _ _ I E) R') as [K1 K2].
    split; congruence.
Qed.

End Session.

(** ** Opening the connection *)

(** [wsServe] returns the dial error only when the response and its TLS
    state are both there. *)
Lemma wsServe_failed d err :
  wsServe d = Failed err ->
  exists e resp tls, dial_err d = Some e /\ dial_resp d = Some resp /\
                     TLS resp = Some tls /\ err = dial_error_of e.
Proof.
  unfold wsServe. destruct (dial_err d) as [e|].
  - destruct (dial_resp d) as [resp|]; [|discriminate].
    destruct (TLS resp) as [tls|] eqn:E; [|discriminate].
    intros [= <-]. exists e, resp, tls. auto.
  - destruct (dial_conn d); discriminate.
Qed.

(** C3.  When [Dialer.Dial] fails without an HTTP response (any failure
    before the handshake: refused connection, DNS, TLS), or with a response
    of a plain-text connection, [wsServe] does not return the error: the
    diagnostic prints dereference a nil pointer. *)
Theorem wsServe_panics_on_dial_failure c err status body :
  wsServe {| dial_conn := c; dial_resp := None; dial_err := Some err |}
    = Panicked /\
  wsServe {| dial_conn := c;
             dial_resp := Some {| Status := status; Body := body; TLS := None |};
             dial_err := Some err |}
    = Panicked.
Proof. split; reflexivity. Qed.

(** X17.  The error [wsServe] returns never is a [*websocket.CloseError] or
    a [*websocket.HandshakeError] itself: a [CloseError] comes back as the
    [fmt.Errorf] text with the prefix [websocket.CloseError: ], a
    [HandshakeError] as the one with the prefix [websocket.Handshake: ], and
    every other dial error unchanged. *)
Theorem wsServe_error_is_rewritten d err :
  wsServe d = Failed err ->
  (forall code text, err <> CloseError code text) /\
  (forall msg, err <> HandshakeError msg) /\
  exists e, dial_err d = Some e /\
    (forall code text, e = CloseError code text ->
       err = Errorf "websocket.CloseError: %v" e) /\
    (forall msg, e = HandshakeError msg ->
       err = Errorf "websocket.Handshake: %v" e) /\
    ((forall code text, e <> CloseError code text) ->
     (forall msg, e <> HandshakeError msg) -> err = e).
Proof.
  intros H. destruct (wsServe_failed _ _ H) as (e & resp & tls & H1 & _ & _ & ->).
  split; [|split].
  - intros code text. destruct e; discriminate.
  - intros msg. destruct e; discriminate.
  - exists e. split; [exact H1|]. split; [|split].
    + intros code text ->. reflexivity.
    + intros msg ->. reflexivity.
    + intros N1 N2. destruct e; try reflexivity.
      * exfalso. eapply N1. reflexivity.
      * exfalso. eapply N2. reflexivity.
Qed.

(** ** The stream client's endpoint *)

Lemma length_append (a b : string) :
  String.length (a ++ b) = (String.length a + String.length b)%nat.
Proof. induction a as [|c a IH]; simpl; [reflexivity|]. now rewrite IH. Qed.

Lemma append_cancel_r (a b c : string) :
  (a ++ c)%string = (b ++ c)%string -> a = b.
Proof.
  revert b. induction a as [|x a IH]; intros [|y b] H; simpl in H.
  - reflexivity.
  - apply (f_equal String.length) in H. simpl in H.
    rewrite length_append in H. lia.
  - apply (f_equal String.length) in H. simpl in H.
    rewrite length_append in H. lia.
  - injection H as -> H. f_equal. now apply IH.
Qed.

Lemma last_char_append (a c : string) :
  c <> EmptyString -> last_char (a ++ c) = last_char c.
Proof.
  intros Hc. induction a as [|x a IH]; simpl; [reflexivity|].
  destruct (a ++ c)%string eqn:E; [|exact IH].
  destruct a; simpl in E; [congruence|discriminate].
Qed.

Lemma prefix_append (a b : string) : String.prefix a (a ++ b) = true.
Proof.
  induction a as [|x a IH]; simpl.
  - destruct b; reflexivity.
  - destruct (Ascii.ascii_dec x x); [exact IH|congruence].
Qed.

(** X1.  The endpoint tells the client's configuration: two clients with
    the same endpoint have the same mode (combined or raw) and were built
    from the same base URL, the default standing for an empty list. *)
Theorem NewWebsocketStreamClient_injective c1 c2 l1 l2 :
  Endpoint (NewWebsocketStreamClient c1 l1) =
  Endpoint (NewWebsocketStreamClient c2 l2) ->
  c1 = c2 /\
  hd "wss://stream.binance.com:9443"%string l1 =
  hd "wss://stream.binance.com:9443"%string l2.
Proof.
  unfold NewWebsocketStreamClient. simpl.
  change (match l1 with u :: _ => u | [] => "wss://stream.binance.com:9443" end)%string
    with (hd "wss://stream.binance.com:9443"%string l1).
  change (match l2 with u :: _ => u | [] => "wss://stream.binance.com:9443" end)%string
    with (hd "wss://stream.binance.com:9443"%string l2).
  generalize (hd "wss://stream.binance.com:9443"%string l1) as u1.
  generalize (hd "wss://stream.binance.com:9443"%string l2) as u2.
  intros u2 u1 H.
  destruct c1, c2.
  - split; [reflexivity|]. eapply append_cancel_r; eauto.
  - apply (f_equal last_char) in H.
    rewrite !last_char_append in H by discriminate. discriminate.
  - apply (f_equal last_char) in H.
    rewrite !last_char_append in H by discriminate. discriminate.
  - split; [reflexivity|]. eapply append_cancel_r; eauto.
Qed.

(** X2.  A given base URL is taken as it stands, also when it is empty or
    ends in a slash: the endpoint starts with it and is longer by the 16
    characters of the combined path or the 3 of the raw one, and base URLs
    after the first play no part. *)
Theorem NewWebsocketStreamClient_base c u rest :
  String.prefix u (Endpoint (NewWebsocketStreamClient c (u :: rest))) = true /\
  String.length (Endpoint (NewWebsocketStreamClient c (u :: rest))) =
    (String.length u + if c then 16 else 3)%nat /\
  NewWebsocketStreamClient c (u :: rest) = NewWebsocketStreamClient c [u] /\
  IsCombined (NewWebsocketStreamClient c (u :: rest)) = c.
Proof.
  unfold NewWebsocketStreamClient; simpl.
  destruct c; repeat split; try apply prefix_append;
    rewrite length_append; reflexivity.
Qed.

(** ** Schedules the specification rules out *)

(** C7.  With keepalive off: the caller's send on [stopCh] completes while
    the read loop is healthy, the connection then fails with [e], the read
    loop tests [silent] before the coordinator has set it, and [errHandler]
    is called with [e]. *)
Theorem error_reported_after_stop t e :
  exists s1 s2,
    run false t init [CoStart 0; CallerStop; CoTakeCallerStop] = Some s1 /\
    stops_taken s1 = 1%nat /\ stop_waiting s1 = 0%nat /\
    reader s1 = RdRead /\ reported s1 = [] /\
    run false t s1 [RdFail e; RdReport; CoSilence; CoClose] = Some s2 /\
    reported s2 = [e] /\ silent s2 = true /\ done_closed s2 = true.
Proof.
  eexists. eexists.
  split; [vm_compute; reflexivity|].
  do 4 (split; [reflexivity|]).
  split; [vm_compute; reflexivity|].
  repeat split.
Qed.

(** Evaluate a closed schedule, keeping the equation. *)
Tactic Notation "evaluate" constr(t) "as" ident(E) :=
  let r := eval vm_compute in t in
  assert (E : t = r) by (vm_compute; reflexivity).

Lemma stop_silences_errors_fails : ~ stop_silences_errors false (60 * Second).
Proof.
  intros H.
  evaluate (run false (60 * Second) init
              [CoStart 0; CallerStop; CoTakeCallerStop]) as E1.
  match type of E1 with _ = Some ?s1 =>
    evaluate (run false (60 * Second) s1
                [RdFail ErrNetClosed; RdReport; CoSilence; CoClose]) as E2;
    pose proof (H _ s1 E1) as H1
  end.
  match type of E2 with _ = Some ?s2 =>
    assert (K : reported s2 = [])
  end.
  { apply H1 with (tr' := [RdFail ErrNetClosed; RdReport; CoSilence; CoClose]).
    - reflexivity.
    - reflexivity.
    - intros e. discriminate.
    - exact E2. }
  discriminate K.
Qed.

(** C1.  After a caller's stop [doneCh] is closed while the read loop is
    still in [ReadMessage]; the next frame goes to the handler. *)
Lemma handler_called_after_done :
  ~ done_follows_read_loop false (60 * Second).
Proof.
  intros H.
  evaluate (run false (60 * Second) init caller_stops) as E1.
  match type of E1 with _ = Some ?s1 =>
    evaluate (run false (60 * Second) s1 [RdFrame [Byte.x61]; RdHandler]) as E2;
    destruct (H _ s1 E1) as [_ Hh]; [reflexivity|]
  end.
  specialize (Hh _ _ E2). discriminate Hh.
Qed.

(** C2.  The connection fails, the session ends, and a stop raised
    afterwards is never taken. *)
Lemma stop_after_done_never_taken :
  ~ stop_after_done_returns false (60 * Second).
Proof.
  intros H.
  evaluate (run false (60 * Second) init (peer_closes ErrNetClosed)) as E1.
  match type of E1 with _ = Some ?s1 =>
    evaluate (step false (60 * Second) s1 CallerStop) as E2
  end.
  destruct (H _ _ _ E1 eq_refl E2) as (tr' & s' & R & T).
  apply exited_run in R; [|reflexivity].
  destruct R as (_ & K & _). rewrite K in T. discriminate T.
Qed.

(** C4.  After a caller's stop has been handled the socket is open. *)
Lemma socket_open_after_stop :
  ~ stop_closes_socket false (60 * Second).
Proof.
  intros H.
  evaluate (run false (60 * Second) init caller_stops) as E1.
  specialize (H _ _ E1 eq_refl eq_refl).
  discriminate H.
Qed.

(** C8.  Keepalive on, timeout 60 s, no pong for 61 s: the loop returns
    and the socket is open. *)
Lemma socket_open_after_keepalive_timeout :
  ~ keepalive_closes_socket true (60 * Second).
Proof.
  intros H.
  evaluate (run true (60 * Second) init [CoStart 0; KaWrite true]) as E1.
  match type of E1 with _ = Some ?s1 =>
    evaluate (step true (60 * Second) s1 (KaTicked (61 * Second))) as E2
  end.
  assert (G : Since (61 * Second) 0 > 60 * Second) by (vm_compute; reflexivity).
  destruct (H _ _ (61 * Second) _ E1 eq_refl G E2) as [_ Hc].
  discriminate Hc.
Qed.

(** C6.  The connection fails first; a caller then raises stop and the
    coordinator sets [silent] before the read loop tests it: [errHandler]
    is not called at all. *)
Lemma read_error_not_reported :
  ~ read_error_always_reported false (60 * Second).
Proof.
  intros H.
  evaluate (run false (60 * Second) init [CoStart 0]) as E1.
  match type of E1 with _ = Some ?s =>
    evaluate (step false (60 * Second) s (RdFail ErrNetClosed)) as E2
  end.
  match type of E2 with _ = Some ?s1 =>
    evaluate (run false (60 * Second) s1
                [CallerStop; CoTakeCallerStop; CoSilence; RdReport; CoClose])
      as E3
  end.
  specialize (H _ _ _ _ _ _ E1 eq_refl eq_refl E2 E3 eq_refl).
  discriminate H.
Qed.

(** ** The theorems at concrete schedules *)

Lemma done_closed_exactly_once_witness :
  exists s,
    run false (60 * Second) init (stop_then_error ErrNetClosed) = Some s /\
    (done_closes s <= 1)%nat /\ coord s = CoExited.
Proof.
  evaluate (run false (60 * Second) init (stop_then_error ErrNetClosed)) as E.
  match type of E with _ = Some ?s =>
    exists s; split; [exact E|];
    destruct (done_closed_exactly_once false (60 * Second) _ s E)
      as (H1 & H2 & _ & _)
  end.
  split; [exact H1|]. apply H2. reflexivity.
Defined.

Lemma done_after_read_loop_without_stop_witness :
  exists s,
    run false (60 * Second) init (peer_closes ErrNetClosed) = Some s /\
    done_closed s = true /\ reader s = RdExited /\
    forall tr' s', run false (60 * Second) s tr' = Some s' ->
                   handled s' = handled s.
Proof.
  evaluate (run false (60 * Second) init (peer_closes ErrNetClosed)) as E.
  match type of E with _ = Some ?s =>
    exists s; split; [exact E|]; split; [reflexivity|];
    destruct (done_after_read_loop_without_stop false (60 * Second) _ s E
                eq_refl) as [H _]
  end.
  destruct (H eq_refl) as [H1 H2]. split; [exact (H1 eq_refl)|exact H2].
Defined.

Lemma stop_after_done_blocks_witness :
  exists s,
    run false (60 * Second) init (peer_closes ErrNetClosed) = Some s /\
    done_closed s = true /\
    forall tr' s', run false (60 * Second) s (CallerStop :: tr') = Some s' ->
                   stops_taken s' = 0%nat /\ (1 <= stop_waiting s')%nat.
Proof.
  evaluate (run false (60 * Second) init (peer_closes ErrNetClosed)) as E.
  match type of E with _ = Some ?s =>
    exists s; split; [exact E|]; split; [reflexivity|];
    pose proof (stop_after_done_blocks false (60 * Second) _ s E eq_refl) as H
  end.
  intros tr' s' R. destruct (H _ _ R) as (H1 & _ & _).
  split; [exact H1|].
  change (run false (60 * Second)
            {| sock := {| closed := false; readLimit := 655350;
                          pongHandler := false |};
               done_closes := 1; stop_waiting := 1; stops_taken := 0;
               silent := true; coord := CoExited; reader := RdExited;
               ka := KaOff; lastResponse := 0; ticker_stopped := false;
               handled := []; reported := [ErrNetClosed];
               crashed := false |} tr' = Some s') in R.
  apply exited_run in R; [|reflexivity]. destruct R as (_ & _ & _ & _ & R & _).
  exact R.
Defined.

Lemma stop_leaves_socket_open_witness :
  exists s,
    run false (60 * Second) init [CoStart 0] = Some s /\
    closed (sock s) = false /\
    exists s1,
      run false (60 * Second) s
        [CallerStop; CoTakeCallerStop; CoSilence; CoClose] = Some s1 /\
      sock s1 = sock s /\ done_closed s1 = true /\ reader s1 = RdRead.
Proof.
  evaluate (run false (60 * Second) init [CoStart 0]) as E.
  match type of E with _ = Some ?s =>
    exists s; split; [exact E|];
    destruct (stop_leaves_socket_open false (60 * Second) _ s E) as [H1 H2]
  end.
  split; [exact H1|].
  destruct (H2 eq_refl eq_refl) as (s1 & R & K1 & _ & K3 & K4 & _).
  exists s1. repeat split; assumption.
Defined.

Lemma read_error_reported_unless_silent_witness :
  exists s,
    run false (60 * Second) init [CoStart 0; RdFail ErrNetClosed] = Some s /\
    reader s = RdErr ErrNetClosed /\
    reported s = [] /\ silent s = false /\
    exists s1, step false (60 * Second) s RdReport = Some s1 /\
               reported s1 = [ErrNetClosed].
Proof.
  evaluate (run false (60 * Second) init [CoStart 0; RdFail ErrNetClosed]) as E.
  match type of E with _ = Some ?s =>
    exists s; split; [exact E|]; split; [reflexivity|];
    destruct (read_error_reported_unless_silent false (60 * Second) _ s
                ErrNetClosed E eq_refl) as (H1 & H2 & s1 & H3 & H4 & _)
  end.
  split; [exact H1|]. split; [exact (H2 eq_refl)|].
  exists s1. split; assumption.
Defined.

Lemma keepalive_timeout_stops_probing_witness :
  exists s,
    run true (60 * Second) init [CoStart 0; KaWrite true] = Some s /\
    ka s = KaTick /\ Since (61 * Second) (lastResponse s) > 60 * Second /\
    exists s', step true (60 * Second) s (KaTicked (61 * Second)) = Some s' /\
               ka s' = KaExited /\ closed (sock s') = false.
Proof.
  evaluate (run true (60 * Second) init [CoStart 0; KaWrite true]) as E.
  assert (G : Since (61 * Second) 0 > 60 * Second) by (vm_compute; reflexivity).
  match type of E with _ = Some ?s =>
    exists s; split; [exact E|]; split; [reflexivity|]; split; [exact G|];
    destruct (keepalive_timeout_stops_probing true (60 * Second) _ s
                (61 * Second) E eq_refl G)
      as (s' & H1 & H2 & _ & _ & H5 & _)
  end.
  exists s'. repeat split; assumption.
Defined.

Lemma handler_calls_follow_frames_witness :
  exists s,
    run false (60 * Second) init
      [CoStart 0; RdFrame [Byte.x61]; RdHandler; RdFrame [Byte.x62]] = Some s /\
    handled s ++ in_flight s = [[Byte.x61]; [Byte.x62]].
Proof.
  evaluate (run false (60 * Second) init
              [CoStart 0; RdFrame [Byte.x61]; RdHandler; RdFrame [Byte.x62]])
    as E.
  match type of E with _ = Some ?s =>
    exists s; split; [exact E|];
    destruct (handler_calls_follow_frames false (60 * Second) _ s E)
      as (H & _)
  end.
  exact H.
Defined.


(** ** The further properties at concrete inputs *)

Lemma NewWebsocketStreamClient_injective_witness :
  Endpoint (NewWebsocketStreamClient true ["wss://a"; "wss://b"]%string) =
  Endpoint (NewWebsocketStreamClient true ["wss://a"]%string) /\
  true = true /\
  hd "wss://stream.binance.com:9443"%string ["wss://a"; "wss://b"]%string =
  hd "wss://stream.binance.com:9443"%string ["wss://a"]%string.
Proof.
  split; [reflexivity|].
  apply (NewWebsocketStreamClient_injective true true
           ["wss://a"; "wss://b"]%string ["wss://a"]%string).
  reflexivity.
Defined.

Lemma wsServe_error_is_rewritten_witness :
  wsServe {| dial_conn := None;
             dial_resp := Some {| Status := "400 Bad Request"; Body := "";
                                  TLS := Some {| NegotiatedProtocol := "" |} |};
             dial_err := Some (HandshakeError "bad handshake") |}
  = Failed (Errorf "websocket.Handshake: %v" (HandshakeError "bad handshake")) /\
  forall msg,
    Errorf "websocket.Handshake: %v" (HandshakeError "bad handshake")
    <> HandshakeError msg.
Proof.
  split; [reflexivity|].
  apply (wsServe_error_is_rewritten
           {| dial_conn := None;
              dial_resp := Some {| Status := "400 Bad Request"; Body := "";
                                   TLS := Some {| NegotiatedProtocol := "" |} |};
              dial_err := Some (HandshakeError "bad handshake") |}).
  reflexivity.
Defined.

Lemma errHandler_at_most_once_witness :
  exists s,
    run false (60 * Second) init (peer_closes ErrNetClosed) = Some s /\
    (List.length (reported s) <= 1)%nat.
Proof.
  evaluate (run false (60 * Second) init (peer_closes ErrNetClosed)) as E.
  match type of E with _ = Some ?s =>
    exists s; split; [exact E|];
    exact (proj1 (errHandler_at_most_once false (60 * Second) _ s E))
  end.
Defined.

Lemma read_error_is_final_witness :
  exists s,
    run false (60 * Second) init [CoStart 0; RdFail ErrNetClosed] = Some s /\
    reader s = RdErr ErrNetClosed /\
    forall tr' s', run false (60 * Second) s tr' = Some s' ->
                   handled s' = handled s.
Proof.
  evaluate (run false (60 * Second) init [CoStart 0; RdFail ErrNetClosed]) as E.
  match type of E with _ = Some ?s =>
    exists s; split; [exact E|]; split; [reflexivity|];
    pose proof (read_error_is_final false (60 * Second) _ s ErrNetClosed E
                  eq_refl) as H
  end.
  intros tr' s' R. exact (proj1 (H tr' s' R)).
Defined.

Lemma done_case_never_fires_witness :
  exists s,
    run false (60 * Second) init [CoStart 0; CallerStop] = Some s /\
    step false (60 * Second) s CoTakeDone = None.
Proof.
  evaluate (run false (60 * Second) init [CoStart 0; CallerStop]) as E.
  match type of E with _ = Some ?s =>
    exists s; split; [exact E|];
    exact (done_case_never_fires false (60 * Second) _ s E)
  end.
Defined.


Lemma error_reported_before_done_witness :
  exists s,
    run false (60 * Second) init (peer_closes ErrNetClosed) = Some s /\
    reader s = RdExited /\ exists e, reported s = [e].
Proof.
  evaluate (run false (60 * Second) init (peer_closes ErrNetClosed)) as E.
  match type of E with _ = Some ?s =>
    exists s; split; [exact E|]; split; [reflexivity|];
    exact (proj1 (error_reported_before_done false (60 * Second) _ s E)
             eq_refl)
  end.
Defined.

Lemma oversized_frame_ends_session_witness :
  exists s,
    run false (60 * Second) init [CoStart 0] = Some s /\
    reader s = RdRead /\ stops_taken s = 0%nat /\
    655350 < msg_len (repeat Byte.x00 (Z.to_nat 655351)) /\
    exists s',
      run false (60 * Second) s
        (RdFrame (repeat Byte.x00 (Z.to_nat 655351)) :: report_and_finish)
        = Some s' /\
      reported s' = [ErrReadLimit] /\ handled s' = handled s.
Proof.
  evaluate (run false (60 * Second) init [CoStart 0]) as E.
  assert (L : 655350 < msg_len (repeat Byte.x00 (Z.to_nat 655351))).
  { unfold msg_len. rewrite repeat_length, Z2Nat.id by lia. lia. }
  match type of E with _ = Some ?s =>
    exists s; split; [exact E|]; do 2 (split; [reflexivity|]);
    split; [exact L|];
    destruct (oversized_frame_ends_session false (60 * Second) _ s _ E
                eq_refl eq_refl L) as (s' & H1 & H2 & H3 & _)
  end.
  exists s'. repeat split; assumption.
Defined.

Lemma frames_then_error_witness :
  (false = false \/ 0 < 60 * Second) /\
  Forall (fun f => fits f = true) [[Byte.x61]; [Byte.x62]] /\
  exists s',
    run false (60 * Second) init
      (CoStart 0 :: deliver [[Byte.x61]; [Byte.x62]] ++
       RdFail ErrNetClosed :: report_and_finish) = Some s' /\
    handled s' = [[Byte.x61]; [Byte.x62]] /\ reported s' = [ErrNetClosed].
Proof.
  assert (F : Forall (fun f => fits f = true) [[Byte.x61]; [Byte.x62]])
    by (repeat constructor).
  split; [left; reflexivity|]. split; [exact F|].
  destruct (frames_then_error false (60 * Second) 0 [[Byte.x61]; [Byte.x62]]
              ErrNetClosed (or_introl eq_refl) F) as (s' & H1 & H2 & H3 & _).
  exists s'. repeat split; assumption.
Defined.


Lemma read_error_after_close_panics_witness :
  exists s s',
    xrun false (60 * Second) (init, false)
      [Plain (CoStart 0); CallerClose; CoTakeClosed; Plain CoSilence;
       Plain CoClose] = Some (s, true) /\
    crashed s = false /\ reader s = RdRead /\ done_closed s = true /\
    xrun false (60 * Second) (s, true)
      [Plain (RdFail ErrNetClosed); Plain RdReport; RdSendClosed]
      = Some (s', true) /\
    crashed s' = true /\ reported s' = [].
Proof.
  evaluate (xrun false (60 * Second) (init, false)
      [Plain (CoStart 0); CallerClose; CoTakeClosed; Plain CoSilence;
       Plain CoClose]) as E.
  match type of E with _ = Some (?s, _) =>
    exists s;
    destruct (read_error_after_close_panics false (60 * Second) s
                ErrNetClosed eq_refl eq_refl) as (s' & H1 & H2 & _ & H4);
    exists s'; split; [exact E|]; do 3 (split; [reflexivity|]);
    split; [exact H1|]; split; [exact H2|exact H4]
  end.
Defined.

Lemma bad_timeout_panics_at_start_witness :
  exists s,
    true = true /\ 0 <= 0 /\
    run true 0 init [CallerStop; CoStart 0] = Some s /\
    reader s = RdIdle /\ handled s = [] /\ reported s = [].
Proof.
  evaluate (run true 0 init [CallerStop; CoStart 0]) as E.
  assert (Z0 : 0 <= 0) by lia.
  match type of E with _ = Some ?s =>
    exists s; split; [reflexivity|]; split; [exact Z0|]; split; [exact E|];
    destruct (bad_timeout_panics_at_start true 0 _ s eq_refl Z0 E)
      as (H1 & H2 & H3 & _)
  end.
  repeat split; assumption.
Defined.

Lemma keepalive_off_never_probes_witness :
  exists s,
    false = false /\
    run false (60 * Second) init [CoStart 0] = Some s /\
    ka s = KaOff /\ pongHandler (sock s) = false.
Proof.
  evaluate (run false (60 * Second) init [CoStart 0]) as E.
  match type of E with _ = Some ?s =>
    exists s; split; [reflexivity|]; split; [exact E|];
    destruct (keepalive_off_never_probes false (60 * Second) _ s eq_refl E)
      as (H1 & H2 & _)
  end.
  split; assumption.
Defined.

Lemma keepalive_ends_only_by_itself_witness :
  exists s s',
    run true (60 * Second) init [CoStart 0; KaWrite true] = Some s /\
    step true (60 * Second) s (KaTicked (61 * Second)) = Some s' /\
    probing (ka s) = true /\ ka s' = KaExited /\
    ((KaTicked (61 * Second) = KaWrite false /\ ka s = KaPing) \/
     exists now, KaTicked (61 * Second) = KaTicked now /\ ka s = KaTick /\
                 Since now (lastResponse s) > 60 * Second).
Proof.
  evaluate (run true (60 * Second) init [CoStart 0; KaWrite true]) as E.
  match type of E with _ = Some ?s =>
    evaluate (step true (60 * Second) s (KaTicked (61 * Second))) as E';
    exists s
  end.
  match type of E' with _ = Some ?s' => exists s' end.
  split; [exact E|]. split; [exact E'|]. do 2 (split; [reflexivity|]).
  exact (keepalive_ends_only_by_itself true (60 * Second) _ _ _ _ E E'
           eq_refl eq_refl).
Defined.

Lemma keepalive_outlives_done_witness :
  exists s,
    run true (60 * Second) init caller_stops = Some s /\
    done_closed s = true /\ ka s = KaPing /\
    exists s', step true (60 * Second) s (KaWrite true) = Some s' /\
               ka s' = KaTick.
Proof.
  evaluate (run true (60 * Second) init caller_stops) as E.
  match type of E with _ = Some ?s =>
    exists s; split; [exact E|]; do 2 (split; [reflexivity|]);
    exact (proj1 (keepalive_outlives_done true (60 * Second) _ s E eq_refl)
             eq_refl)
  end.
Defined.

Lemma pong_keeps_probing_witness :
  exists s,
    run true (60 * Second) init [CoStart 0; KaWrite true] = Some s /\
    ka s = KaTick /\ reader s = RdRead /\
    Since (60 * Second) (30 * Second) <= 60 * Second /\
    exists s',
      run true (60 * Second) s [Pong (30 * Second); KaTicked (60 * Second)]
        = Some s' /\
      ka s' = KaPing /\ lastResponse s' = 30 * Second.
Proof.
  evaluate (run true (60 * Second) init [CoStart 0; KaWrite true]) as E.
  assert (G : Since (60 * Second) (30 * Second) <= 60 * Second)
    by (vm_compute; discriminate).
  match type of E with _ = Some ?s =>
    exists s; split; [exact E|]; do 2 (split; [reflexivity|]);
    split; [exact G|];
    exact (pong_keeps_probing true (60 * Second) _ s (30 * Second)
             (60 * Second) E eq_refl eq_refl G)
  end.
Defined.

Lemma silent_stays_and_suppresses_witness :
  exists s,
    run false (60 * Second) init caller_stops = Some s /\
    silent s = true /\
    forall tr' s', run false (60 * Second) s tr' = Some s' ->
                   silent s' = true /\ reported s' = reported s.
Proof.
  evaluate (run false (60 * Second) init caller_stops) as E.
  match type of E with _ = Some ?s =>
    exists s; split; [exact E|]; split; [reflexivity|];
    exact (silent_stays_and_suppresses false (60 * Second) _ s E eq_refl)
  end.
Defined.
